(** * spacegame: orbit propagation and system construction

    A shallow embedding of the orbital core of the repository:
    - [PositionAt] and [Period] of the Go package [data] (orbit propagation
      at a Julian day),
    - the per-frame propagation of [updateOrbits] in the TypeScript
      component [SystemMap],
    - [NewSystem], which attaches satellites to a central body and, when the
      two-body barycenter lies far enough from the central body, inserts a
      synthetic [Barycenter] node.

    Numbers.  The sources compute in [float64] / JS numbers.  They are
    modelled here by the real numbers: rounding, NaN, infinities and signed
    zeros are outside the model.  [math.Sin], [math.Cos] and [math.Sqrt] are
    the real functions of the same name, [math.Atan2] is rebuilt from [atan]
    by quadrants, and [math.Pow] is the real power guarded at a non-positive
    base.  A division by zero, which yields an infinity or NaN in the
    sources, has no counterpart in the reals; the theorems about
    [NewSystem] are stated for positive masses, where none occurs. *)

From stdpp Require Import base list strings.
From stdpp Require sorting relations.
From Stdlib Require Import Reals Lra Sorted.

Local Open Scope R_scope.

(** ** Numeric primitives *)

(** [math.Atan2(y, x)]: the angle of the point [(x, y)], by quadrants, as the
    Go and ECMAScript libraries specify it (with [+0] for a zero [y]). *)
Definition Atan2 (y x : R) : R :=
  if Req_dec_T y 0 then
    (if Rle_dec 0 x then 0 else PI)
  else if Req_dec_T x 0 then
    (if Rlt_dec 0 y then PI / 2 else - (PI / 2))
  else
    let q := atan (y / x) in
    if Rlt_dec x 0 then
      (if Rle_dec q 0 then q + PI else q - PI)
    else q.

(** [math.Pow(x, y)] for a non-integral positive exponent [y]: zero at a zero
    base, [x^y] at a positive base.  (Go yields NaN at a negative base; the
    model has no NaN and yields [0] there.) *)
Definition Pow (x y : R) : R :=
  if Rle_dec x 0 then 0 else Rpower x y.

(** ** Data model of package [data] *)

(** [Vector2D] is a 2D cartesian coordinate. *)
Record Vector2D : Type := mkVector2D { X : R; Y : R }.

(** [orbit]: the five orbital elements. *)
Record orbit : Type := NewOrbit {
  a : R;       (* semi-major axis *)
  e : R;       (* eccentricity *)
  pomega : R;  (* longitude of periapsis *)
  m0 : R;      (* mean anomaly at epoch (J2000) *)
  n : R        (* mean angular motion (per day) *)
}.

(** J2000 is the Julian Day reference point. *)
Definition J2000 : R := 2451545.

Definition Period (o : orbit) : R := 2 * PI / n o.

(** ** Orbit propagation *)

(** The Go method [(o *orbit) PositionAt(julianDay)].  The [for] loop with
    ten rounds is [Nat.iter 10] on the loop variable [E]. *)
Definition PositionAt (o : orbit) (julianDay : R) : Vector2D :=
  if Rle_dec (a o) 0 then mkVector2D 0 0
  else
    let M := m0 o + (julianDay - J2000) * n o in
    let E := Nat.iter 10 (fun E => M + e o * sin E) M in
    let y := sqrt (1 - e o) * cos (E / 2) in
    let x := sqrt (1 + e o) * sin (E / 2) in
    let r := a o * (1 - e o * cos E) in
    let theta := pomega o + 2 * Atan2 y x in
    mkVector2D (r * cos theta) (r * sin theta).

(** The body of the TypeScript loop in [updateOrbits] for one object: the
    position written to [obj.frame.position] when the simulation clock
    [this.t] (after the increment) is [t]. *)
Definition updateOrbits_position (obt : orbit) (t : R) : Vector2D :=
  let M := - (m0 obt + t * n obt) in
  let E := Nat.iter 10 (fun E => M + e obt * sin E) M in
  let th := pomega obt
            + 2 * Atan2 (sqrt (1 - e obt) * cos (E / 2))
                        (sqrt (1 + e obt) * sin (E / 2)) in
  let r := - a obt * (1 - e obt * cos E) in
  mkVector2D (r * cos th) (r * sin th).

(** The Kepler iterates as the specification words them: [E_0 = M] and
    [E_(k+1) = M + e sin E_k]. *)
Fixpoint keplerE (M ecc : R) (k : nat) : R :=
  match k with
  | O => M
  | S k' => M + ecc * sin (keplerE M ecc k')
  end.

(** ** Nodes and the store

    [Body] and [Barycenter] both embed [orbitable], and the program handles
    them through pointers ([*Body], [*Barycenter] behind the [Orbitable]
    interface) which [NewSystem] mutates in place.  A node is therefore a
    cell of a store, and a pointer is the index of its cell. *)

Abbreviation ref := nat (only parsing).

Inductive BodyType : Type :=
  Star | Planet | DwarfPlanet | Moon | Asteroid | Comet.

Inductive nodeKind : Type :=
| Body (btype : BodyType)
| Barycenter.

(** A slice of node pointers: [None] is the nil slice, which Go tells apart
    from an empty one. *)
Definition slice : Type := option (list ref).

Definition elems (s : slice) : list ref :=
  match s with Some l => l | None => [] end.

(** [orbitable] with the embedded [orbiter] (orbit, name, parent) flattened;
    [kind] records which concrete struct embeds it. *)
Record orbitable : Type := mkOrbitable {
  orb : orbit;
  name : string;
  parent : option ref;
  satellites : slice;
  radius : R;
  mass : R;
  soi : R;
  kind : nodeKind
}.

Definition set_orb (v : orbit) (o : orbitable) : orbitable :=
  mkOrbitable v (name o) (parent o) (satellites o) (radius o) (mass o) (soi o) (kind o).
Definition set_name (v : string) (o : orbitable) : orbitable :=
  mkOrbitable (orb o) v (parent o) (satellites o) (radius o) (mass o) (soi o) (kind o).
Definition set_parent (v : option ref) (o : orbitable) : orbitable :=
  mkOrbitable (orb o) (name o) v (satellites o) (radius o) (mass o) (soi o) (kind o).
Definition set_satellites (v : slice) (o : orbitable) : orbitable :=
  mkOrbitable (orb o) (name o) (parent o) v (radius o) (mass o) (soi o) (kind o).
Definition set_radius (v : R) (o : orbitable) : orbitable :=
  mkOrbitable (orb o) (name o) (parent o) (satellites o) v (mass o) (soi o) (kind o).
Definition set_mass (v : R) (o : orbitable) : orbitable :=
  mkOrbitable (orb o) (name o) (parent o) (satellites o) (radius o) v (soi o) (kind o).
Definition set_soi (v : R) (o : orbitable) : orbitable :=
  mkOrbitable (orb o) (name o) (parent o) (satellites o) (radius o) (mass o) v (kind o).

Definition set_a (v : R) (o : orbit) : orbit :=
  NewOrbit v (e o) (pomega o) (m0 o) (n o).
Definition set_m0 (v : R) (o : orbit) : orbit :=
  NewOrbit (a o) (e o) (pomega o) v (n o).

(** The semi-major axis of a node, through the promoted field [body.a]. *)
Definition a_of (o : orbitable) : R := a (orb o).

Abbreviation heap := (list orbitable) (only parsing).

(** ** A state and panic monad for the mutating code *)

Inductive result (A : Type) : Type :=
| Ok (x : A) (h : heap)
| Panic (msg : string).
Arguments Ok {A} x h.
Arguments Panic {A} msg.

Definition M (A : Type) : Type := heap -> result A.

Definition ret {A} (x : A) : M A := fun h => Ok x h.

Definition bind {A B} (m : M A) (k : A -> M B) : M B :=
  fun h => match m h with
           | Ok x h' => k x h'
           | Panic msg => Panic msg
           end.

Definition panic {A} (msg : string) : M A := fun _ => Panic msg.

#[global] Instance M_ret : MRet M := @ret.
#[global] Instance M_bind : MBind M := fun A B k m => bind m k.

Definition nilDeref : string :=
  "runtime error: invalid memory address or nil pointer dereference".

(** Reading through a pointer; a pointer to no cell panics like a nil
    pointer. *)
Definition load (r : ref) : M orbitable :=
  fun h => match h !! r with
           | Some o => Ok o h
           | None => Panic nilDeref
           end.

(** Reading through a pointer that may be nil. *)
Definition deref (r : option ref) : M orbitable :=
  match r with
  | Some p => load p
  | None => panic nilDeref
  end.

(** An assignment [p.field = v], as a function on the cell. *)
Definition modify (r : ref) (f : orbitable -> orbitable) : M unit :=
  fun h => match h !! r with
           | Some o => Ok tt (<[r := f o]> h)
           | None => Panic nilDeref
           end.

Definition modify_opt (r : option ref) (f : orbitable -> orbitable) : M unit :=
  match r with
  | Some p => modify p f
  | None => panic nilDeref
  end.

(** Allocation of a new cell; its pointer is the next free index. *)
Definition alloc (o : orbitable) : M ref :=
  fun h => Ok (length h) (h ++ [o]).

Fixpoint foldM {A S : Type} (f : S -> A -> M S) (l : list A) (s : S) : M S :=
  match l with
  | [] => ret s
  | x :: l' => s' ← f s x; foldM f l' s'
  end.

(** ** Construction *)

(** The zero value of [orbitable], as in [&Barycenter{}] and [&Body{}]. *)
Definition zeroOrbitable (k : nodeKind) : orbitable :=
  mkOrbitable (NewOrbit 0 0 0 0 0) EmptyString None None 0 0 0 k.

(** [NewBody] creates a new [*Body]. *)
Definition NewBody (btype : BodyType) (nm : string) (rad ms : R) (obt : orbit)
  : M ref :=
  alloc (mkOrbitable obt nm None None rad ms 0 (Body btype)).

(** [byA.Less]: comparison of two nodes by semi-major axis.  The sort only
    compares pointers of the slice; a pointer to no cell (on which Go would
    panic) is given the key [0] and panics in the first loop instead. *)
Definition keyA (h : heap) (s : ref) : R :=
  match h !! s with Some o => a_of o | None => 0 end.

(** [sort.Sort(byA(satellites))], as an insertion sort.  (Go does not
    promise the order of nodes with equal [a]; this one keeps it.) *)
Fixpoint insertByA (h : heap) (s : ref) (l : list ref) : list ref :=
  match l with
  | [] => [s]
  | x :: l' =>
      if Rlt_dec (keyA h x) (keyA h s) then x :: insertByA h s l'
      else s :: x :: l'
  end.

Definition sortByA (h : heap) (l : list ref) : list ref :=
  foldr (insertByA h) [] l.

Definition sortSlice (s : slice) : M slice :=
  fun h => Ok (option_map (sortByA h) s) h.

(** [fmt.Sprintf("%v-%v Barycenter", x, y)] on two strings. *)
Definition barycenterName (x y : string) : string :=
  x +:+ "-" +:+ y +:+ " Barycenter".

(** One round of the first loop of [NewSystem]; the state is the pair of
    locals [(barycenter, baryBody)]. *)
Definition scanBody (centralBody : ref) (st : R * option ref) (s : ref)
  : M (R * option ref) :=
  modify s (set_parent (Some centralBody));;
  body ← load s;
  cb ← load centralBody;
  modify s (set_soi (a_of body * Pow (mass body / mass cb) 0.4));;
  body ← load s;
  cb ← load centralBody;
  let r := a_of body / (1 + mass cb / mass body) in
  if Rlt_dec (fst st) r then ret (r, Some s) else ret st.

(** One round of the second loop; the state is the pair of slices
    [(inner, outer)]. *)
Definition splitBody (bc : ref) (baryBody : option ref)
    (st : list ref * list ref) (s : ref) : M (list ref * list ref) :=
  body ← load s;
  bb ← deref baryBody;
  if Rlt_dec (a_of body) (a_of bb - soi bb) then
    ret (fst st ++ [s], snd st)
  else
    modify s (set_parent (Some bc));;
    ret (fst st, snd st ++ [s]).

(** [(centralBody *Body) NewSystem(satellites []Orbitable) System]. *)
Definition NewSystem (centralBody : ref) (satellites0 : slice) : M ref :=
  cb ← load centralBody;
  match satellites cb with
  | Some _ => panic "Satellites already set"
  | None =>
    sats ← sortSlice satellites0;
    st ← foldM (scanBody centralBody) (elems sats) (0, None);
    let barycenter := fst st in
    let baryBody := snd st in
    cb ← load centralBody;
    if Rlt_dec barycenter (0.5 * radius cb) then
      modify centralBody (set_soi (-1));;
      modify centralBody (set_satellites sats);;
      ret centralBody
    else
      bc ← alloc (zeroOrbitable Barycenter);
      io ← foldM (splitBody bc baryBody) (elems sats) ([], [centralBody]);
      let inner := fst io in
      let outer := snd io in
      modify bc (set_satellites (Some outer));;
      cb ← load centralBody;
      modify bc (set_orb (orb cb));;
      cb ← load centralBody;
      bb ← deref baryBody;
      modify bc (set_name (barycenterName (name cb) (name bb)));;
      modify bc (set_radius barycenter);;
      cb ← load centralBody;
      bb ← deref baryBody;
      modify bc (set_mass (mass cb + mass bb));;
      modify bc (set_soi (-1));;
      bb ← deref baryBody;
      modify centralBody (set_soi (a_of bb - soi bb));;
      modify centralBody (set_satellites (Some inner));;
      bb ← deref baryBody;
      modify centralBody (set_orb (orb bb));;
      modify centralBody (fun o => set_orb (set_a barycenter (orb o)) o);;
      modify centralBody (fun o => set_orb (set_m0 (m0 (orb o) + PI) (orb o)) o);;
      modify_opt baryBody (fun o => set_orb (set_a (a_of o - barycenter) (orb o)) o);;
      ret bc
  end.

(** ** The orbit line and the labels of the map (TypeScript)

    [initOrbit] draws the orbit of a satellite as a [THREE.EllipseCurve]
    around the parent's frame; what it computes are the arguments of the
    curve and the rotation of the line. *)
Record EllipseCurve : Type := mkEllipseCurve {
  aX : R;          (* centre *)
  aY : R;
  xRadius : R;
  yRadius : R;
  aStartAngle : R;
  aEndAngle : R;
  rotationZ : R    (* [line.rotation.z] *)
}.

Definition initOrbit_ellipse (obt : orbit) : EllipseCurve :=
  let a' := a obt in
  let b := a' * sqrt (1 - 1 * e obt * e obt) in
  let c := sqrt (a' * a' - b * b) in
  mkEllipseCurve c 0 a' b (1 * PI) (3 * PI) (pomega obt + PI).

(** A point turned by the angle [phi] about the origin, as the rotation of
    a line or frame about the z axis does. *)
Definition rotate (phi : R) (p : Vector2D) : Vector2D :=
  mkVector2D (X p * cos phi - Y p * sin phi) (X p * sin phi + Y p * cos phi).

(** [String.prototype.endsWith]: some tail of the text is the suffix. *)
Fixpoint endsWith (text suffix : string) : bool :=
  if String.eqb text suffix then true
  else match text with
       | EmptyString => false
       | String _ rest => endsWith rest suffix
       end.

(** [createLabel]: no label ([null]) for a text that ends in
    [" Barycenter"], else a canvas showing the text, which is all the model
    keeps of it. *)
Definition createLabel (text : string) : option string :=
  if endsWith text " Barycenter" then None else Some text.

(** ** Camera and picking of the map (TypeScript)

    The part of [draw] that fits the orthographic camera to the view, the
    place where it draws a label, and the part of [onMouseUp] that turns a
    click into a world position and looks for the nearest object.  Sizes and
    mouse coordinates are numbers of pixels. *)
Record OrthographicCamera : Type := mkCamera {
  cam_left : R;
  cam_right : R;
  cam_top : R;
  cam_bottom : R
}.

(** [draw], camera branch: [scale] and the four planes of the camera. *)
Definition draw_camera (viewSize offsetWidth offsetHeight : R)
  : OrthographicCamera :=
  let scale := viewSize / Rmin offsetWidth offsetHeight in
  mkCamera (- offsetWidth * scale) (offsetWidth * scale)
           (offsetHeight * scale) (- offsetHeight * scale).

(** [draw], camera branch: [root.position] is set to minus the focus. *)
Definition draw_rootPosition (focus : Vector2D) : Vector2D :=
  mkVector2D (- X focus) (- Y focus).

(** [getViewScale]: world units per pixel; [1] without a camera. *)
Definition getViewScale (camera : option OrthographicCamera)
    (clientHeight : R) : R :=
  match camera with
  | None => 1
  | Some cam => (cam_top cam - cam_bottom cam) / clientHeight
  end.

(** [draw], overlay part: where the label of an object at the world
    position [pos] is drawn (the corner handed to [drawImage]). *)
Definition draw_labelAt (viewSize offsetWidth offsetHeight : R)
    (focus pos : Vector2D) : Vector2D :=
  let worldToScreen := Rmin offsetWidth offsetHeight / (2 * viewSize) in
  let offX := offsetWidth / 2 - 50 in
  let offY := offsetHeight / 2 in
  mkVector2D ((X pos - X focus) * worldToScreen + offX)
             (- (Y pos - Y focus) * worldToScreen + offY).

(** [onMouseUp]: screen space to world space. *)
Definition onMouseUp_world (camera : OrthographicCamera) (rootPosition : Vector2D)
    (clientHeight clientX clientY : R) : Vector2D :=
  let scale := getViewScale (Some camera) clientHeight in
  mkVector2D (scale * clientX + cam_left camera - X rootPosition)
             (scale * (clientHeight - clientY) + cam_bottom camera
              - Y rootPosition).

(** The squared distance of an object at [pos] from the point [(x, y)]. *)
Definition dist2To (x y : R) (pos : Vector2D) : R :=
  (X pos - x) * (X pos - x) + (Y pos - y) * (Y pos - y).

(** [onMouseUp], the loop that finds the nearest body: [positions] are the
    results of [getObjectPos] for the objects of the map in order, [i] the
    index of the next object, the state the locals
    [(nearest, distance2)]. *)
Fixpoint nearestFrom (x y : R) (positions : list Vector2D) (i : nat)
    (st : option nat * R) : option nat * R :=
  match positions with
  | [] => st
  | pos :: rest =>
      nearestFrom x y rest (S i)
        (if Rlt_dec (dist2To x y pos) (snd st) then (Some i, dist2To x y pos)
         else st)
  end.

(** What a pick may change of the runner. *)
Record pickState : Type := mkPickState {
  focus : Vector2D;
  focusObject : option nat;
  isCameraDirty : bool
}.

(** [onMouseUp] from the nearest-body search on, for a click at the world
    position [(x, y)] with [scale] world units per pixel. *)
Definition onMouseUp_pick (scale x y : R) (positions : list Vector2D)
    (st : pickState) : pickState :=
  let found := nearestFrom x y positions 0 (None, x * x + y * y) in
  let nearest := fst found in
  let distance2 := snd found in
  let pxDist2 := distance2 / scale / scale in
  if Rlt_dec 2500 pxDist2 then st
  else
    match nearest with
    | Some i => mkPickState (focus st) (Some i) true
    | None => mkPickState (mkVector2D 0 0) None true
    end.

(** ** The websocket demo (server in Go, client in JavaScript)

    The server's handler [ws] reads messages in a loop and answers the text
    ["ping"], after a pause, with ["pong"]; the page sends one message when
    the socket opens and answers ["pong"], after a pause, with ["ping"].
    The pauses only delay the messages; the two directions of the socket
    are queues. *)

(** One round of the loop of [ws]: the reply to a message, if any. *)
Definition ws_reply (msg : string) : option string :=
  if String.eqb msg "ping" then Some "pong" else None.

(** [ws.onopen]: what the page sends first. *)
Definition client_onopen : list string := ["ping2"].

(** [ws.onmessage]: what the page sends on a message from the server. *)
Definition client_onmessage (data : string) : list string :=
  if String.eqb data "pong" then ["ping"] else [].

Record wire : Type := mkWire {
  toServer : list string;
  toClient : list string
}.

Inductive wire_step : wire -> wire -> Prop :=
| server_reads (msg : string) (rest tc : list string) :
    wire_step (mkWire (msg :: rest) tc)
              (mkWire rest (tc ++ option_list (ws_reply msg)))
| client_reads (data : string) (ts rest : list string) :
    wire_step (mkWire ts (data :: rest))
              (mkWire (ts ++ client_onmessage data) rest).

(** The socket right after it opened. *)
Definition wire_opened : wire := mkWire client_onopen [].

(** ** Sample systems

    Cells as [NewBody] allocates them, for the concrete runs below. *)

(** A planet of mass [1e24] and radius [1e6] with one moon of mass [1e18]
    at [a = 1]. *)
Definition heavyPlanet : orbitable :=
  mkOrbitable (NewOrbit 0 0 0 0 0) "P" None None 1e6 1e24 0 (Body Planet).
Definition lightMoon : orbitable :=
  mkOrbitable (NewOrbit 1 0 0 0 1) "M" None None 1 1e18 0 (Body Moon).
Definition planetMoon : list orbitable := [heavyPlanet; lightMoon].

(** Two bodies of equal mass, the second at [a = 2] around the first. *)
Definition twinA : orbitable :=
  mkOrbitable (NewOrbit 0 0 0 0 0) "A" None None 1 1 0 (Body Planet).
Definition twinB : orbitable :=
  mkOrbitable (NewOrbit 2 0 0 0 1) "B" None None 1 1 0 (Body Planet).
Definition twins : list orbitable := [twinA; twinB].

(** The same pair with a light third body at [a = 1/2] in between. *)
Definition pebble : orbitable :=
  mkOrbitable (NewOrbit (1 / 2) 0 0 0 1) "C" None None (1 / 10) (1 / 10) 0
    (Body Moon).
Definition twinsAndPebble : list orbitable := [twinA; pebble; twinB].

(** A body of radius [0] with one satellite resting at its centre
    ([a = 0]), and the same body with one satellite at [a = -2]. *)
Definition pointStar : orbitable :=
  mkOrbitable (NewOrbit 0 0 0 0 0) "A" None None 0 1 0 (Body Star).
Definition stillMoon : orbitable :=
  mkOrbitable (NewOrbit 0 0 0 0 1) "B" None None 1 1 0 (Body Moon).
Definition pointAndStill : list orbitable := [pointStar; stillMoon].
Definition backMoon : orbitable :=
  mkOrbitable (NewOrbit (-2) 0 0 0 1) "B" None None 1 1 0 (Body Moon).
Definition pointAndBack : list orbitable := [pointStar; backMoon].

(** ** The loops of [NewSystem], read functionally

    These describe what the two loops compute from the store they start
    with; the lemmas below relate them to the loops themselves. *)

#[global] Instance Rlt_decision : RelDecision Rlt := Rlt_dec.

(** What the first loop writes to a satellite: the parent link and the
    sphere of influence against the central mass [mc]. *)
Definition touch (centralBody : ref) (mc : R) (o : orbitable) : orbitable :=
  set_soi (a_of o * Pow (mass o / mc) 0.4) (set_parent (Some centralBody) o).

(** The barycenter offset [r] of a satellite from a central mass [mc]. *)
Definition offset (mc : R) (o : orbitable) : R :=
  a_of o / (1 + mc / mass o).

(** The locals [(barycenter, baryBody)] after the first loop over [l]. *)
Fixpoint dominantFrom (h : heap) (mc : R) (l : list ref)
    (st : R * option ref) : R * option ref :=
  match l with
  | [] => st
  | s :: l' =>
      match h !! s with
      | Some o =>
          dominantFrom h mc l'
            (if Rlt_dec (fst st) (offset mc o) then (offset mc o, Some s)
             else st)
      | None => st
      end
  end.

(** The boundary of the second loop, [baryBody.a - baryBody.soi], from the
    dominant satellite [db] as it was before the call and the central mass
    [mc]. *)
Definition threshold (mc : R) (db : orbitable) : R :=
  a_of db - a_of db * Pow (mass db / mc) 0.4.

(** The slices [inner] and [outer] (without the central body) that the
    second loop builds from the sorted slice [l]. *)
Definition innerOf (h : heap) (thr : R) (l : list ref) : list ref :=
  filter (fun s => keyA h s < thr) l.

Definition outerOf (h : heap) (thr : R) (l : list ref) : list ref :=
  filter (fun s => ~ keyA h s < thr) l.

(** The parent the two loops leave to a satellite [s]: the central body
    [c] for an inner one, the barycenter [bc] for an outer one. *)
Definition side (h : heap) (thr : R) (c bc : ref) (s : ref) : ref :=
  if decide (keyA h s < thr) then c else bc.

(** The calls the theorems below are about: the central body [c] is the
    cell [cb], has no satellites yet and has positive radius and mass; the
    satellites are existing nodes of positive mass, none of them the central
    body itself.  Positive masses keep the divisions and the power of
    [NewSystem] where the real numbers stand for the floating-point values. *)
Definition wellFormed (h : heap) (c : ref) (cb : orbitable) (l0 : list ref)
  : Prop :=
  h !! c = Some cb
  /\ satellites cb = None
  /\ 0 < radius cb
  /\ 0 < mass cb
  /\ (c ∉ l0)
  /\ forall s, s ∈ l0 -> exists o, h !! s = Some o /\ 0 < mass o.

(** The weakest precondition of a computation: it returns, and its result
    and final store satisfy [Q]. *)
Definition wp {A} (m : M A) (h : heap) (Q : A -> heap -> Prop) : Prop :=
  match m h with
  | Ok x h' => Q x h'
  | Panic _ => False
  end.

(** Ascending order of a list of nodes by a key. *)
Definition sortedBy (key : ref -> R) (l : list ref) : Prop :=
  Sorted Rle (map key l).

(** * Properties of the propagators *)

Section Propagation.

Lemma iter_keplerE (M ecc : R) (k : nat) :
  Nat.iter k (fun E => M + ecc * sin E) M = keplerE M ecc k.
Proof.
  induction k as [|k IH]; simpl; [reflexivity|].
  now rewrite IH.
Qed.

(** The Kepler iterates are odd in the mean anomaly. *)
Lemma keplerE_opp (M ecc : R) (k : nat) :
  keplerE (- M) ecc k = - keplerE M ecc k.
Proof.
  induction k as [|k IH]; simpl; [reflexivity|].
  rewrite IH, sin_neg. ring.
Qed.

Lemma keplerE_circular (M : R) (k : nat) : keplerE M 0 k = M.
Proof. destruct k; simpl; [reflexivity|ring]. Qed.

Lemma cos_shift_2PI (x : R) : cos (x + 2 * PI) = cos x.
Proof. rewrite cos_plus, cos_2PI, sin_2PI. ring. Qed.

Lemma sin_shift_2PI (x : R) : sin (x + 2 * PI) = sin x.
Proof. rewrite sin_plus, cos_2PI, sin_2PI. ring. Qed.

Lemma cos_unshift_2PI (x : R) : cos (x - 2 * PI) = cos x.
Proof. rewrite cos_minus, cos_2PI, sin_2PI. ring. Qed.

Lemma sin_unshift_2PI (x : R) : sin (x - 2 * PI) = sin x.
Proof. rewrite sin_minus, cos_2PI, sin_2PI. ring. Qed.

(** Mirroring the abscissa turns the angle [t] into [PI - t], up to a full
    turn. *)
Lemma Atan2_opp_x (y x : R) :
  y <> 0 \/ x <> 0 ->
  Atan2 y (- x) = PI - Atan2 y x \/ Atan2 y (- x) = - PI - Atan2 y x.
Proof.
  intros Hnz. unfold Atan2.
  destruct (Req_dec_T y 0) as [Hy|Hy].
  - destruct Hnz as [?|Hx]; [contradiction|].
    destruct (Rle_dec 0 (- x)), (Rle_dec 0 x); try lra.
  - destruct (Req_dec_T (- x) 0), (Req_dec_T x 0); try lra.
    + destruct (Rlt_dec 0 y); lra.
    + replace (y / - x) with (- (y / x)) by (field; assumption).
      rewrite atan_opp.
      destruct (Rlt_dec (- x) 0), (Rlt_dec x 0); try lra.
      * destruct (Rle_dec (- atan (y / x)) 0); lra.
      * destruct (Rle_dec (atan (y / x)) 0); lra.
Qed.

Lemma half_angle_nonzero (ecc E : R) :
  0 <= ecc < 1 ->
  sqrt (1 - ecc) * cos (E / 2) <> 0 \/ sqrt (1 + ecc) * sin (E / 2) <> 0.
Proof.
  intros [H0 H1].
  assert (Hm : 0 < sqrt (1 - ecc)) by (apply sqrt_lt_R0; lra).
  assert (Hp : 0 < sqrt (1 + ecc)) by (apply sqrt_lt_R0; lra).
  destruct (Req_dec_T (cos (E / 2)) 0) as [Hc|Hc].
  - right. intros Hx.
    apply Rmult_integral in Hx as [Hx|Hx]; [lra|].
    pose proof (sin2_cos2 (E / 2)) as Hsc.
    rewrite Hc, Hx in Hsc. unfold Rsqr in Hsc. lra.
  - left. intros Hx.
    apply Rmult_integral in Hx as [Hx|Hx]; [lra|contradiction].
Qed.

(** C1: for an orbit with [a > 0], [PositionAt] is the closed formula: mean
    anomaly [M = m0 + (t - 2451545.0) n], eccentric anomaly the tenth Kepler
    iterate seeded at [M], angle [theta = pomega + 2 atan2(sqrt(1-e) cos(E/2),
    sqrt(1+e) sin(E/2))], radius [r = a (1 - e cos E)], and the point
    [(r cos theta, r sin theta)]. *)
Theorem PositionAt_formula (o : orbit) (t : R) :
  0 < a o ->
  let M := m0 o + (t - 2451545.0) * n o in
  let E := keplerE M (e o) 10 in
  let theta := pomega o
               + 2 * Atan2 (sqrt (1 - e o) * cos (E / 2))
                           (sqrt (1 + e o) * sin (E / 2)) in
  let r := a o * (1 - e o * cos E) in
  PositionAt o t = mkVector2D (r * cos theta) (r * sin theta).
Proof.
  intros Ha M E theta r. unfold PositionAt.
  destruct (Rle_dec (a o) 0) as [Hle|_]; [lra|].
  cbv zeta. unfold J2000.
  replace 2451545 with 2451545.0 by lra.
  fold M. rewrite (iter_keplerE M (e o) 10). reflexivity.
Qed.

Lemma PositionAt_formula_witness :
  PositionAt (NewOrbit 1 0 0 0 1) 2451545.0
  = mkVector2D
      (1 * (1 - 0 * cos (keplerE (0 + (2451545.0 - 2451545.0) * 1) 0 10))
       * cos (0 + 2 * Atan2
                (sqrt (1 - 0) * cos (keplerE (0 + (2451545.0 - 2451545.0) * 1) 0 10 / 2))
                (sqrt (1 + 0) * sin (keplerE (0 + (2451545.0 - 2451545.0) * 1) 0 10 / 2))))
      (1 * (1 - 0 * cos (keplerE (0 + (2451545.0 - 2451545.0) * 1) 0 10))
       * sin (0 + 2 * Atan2
                (sqrt (1 - 0) * cos (keplerE (0 + (2451545.0 - 2451545.0) * 1) 0 10 / 2))
                (sqrt (1 + 0) * sin (keplerE (0 + (2451545.0 - 2451545.0) * 1) 0 10 / 2)))).
Proof.
  apply (PositionAt_formula (NewOrbit 1 0 0 0 1) 2451545.0). simpl. lra.
Defined.

(** C5: for an orbit with [a <= 0], [PositionAt] is the origin, whatever the
    time and the other elements; the function is total, so it never fails. *)
Theorem PositionAt_degenerate (o : orbit) (t : R) :
  a o <= 0 -> PositionAt o t = mkVector2D 0 0.
Proof.
  intros Ha. unfold PositionAt.
  destruct (Rle_dec (a o) 0); [reflexivity|contradiction].
Qed.

Lemma PositionAt_degenerate_witness :
  PositionAt (NewOrbit (-3) 0.5 1 2 0.1) 7 = mkVector2D 0 0
  /\ PositionAt (NewOrbit 0 0.5 1 2 0.1) 7 = mkVector2D 0 0.
Proof.
  split; apply PositionAt_degenerate; simpl; lra.
Defined.

(** The two propagators on a circular orbit of radius one at mean anomaly
    zero: the Go one is at [(-1, 0)], the TypeScript one at [(1, 0)]. *)
Lemma PositionAt_unit_circle :
  PositionAt (NewOrbit 1 0 0 0 1) J2000 = mkVector2D (-1) 0.
Proof.
  unfold PositionAt. cbn [a e pomega m0 n].
  destruct (Rle_dec 1 0) as [Hle|_]; [lra|].
  cbv zeta. rewrite !iter_keplerE, !keplerE_circular.
  replace (0 + (J2000 - J2000) * 1) with 0 by ring.
  replace (0 / 2) with 0 by field.
  replace (1 - 0) with 1 by ring. replace (1 + 0) with 1 by ring.
  rewrite sqrt_1, cos_0, sin_0.
  replace (1 * 1) with 1 by ring. replace (1 * 0) with 0 by ring.
  assert (HA : Atan2 1 0 = PI / 2).
  { unfold Atan2. destruct (Req_dec_T 1 0); [lra|].
    destruct (Req_dec_T 0 0); [|lra]. destruct (Rlt_dec 0 1); lra. }
  rewrite HA. replace (0 + 2 * (PI / 2)) with PI by field.
  rewrite cos_PI, sin_PI. f_equal; ring.
Qed.

Lemma updateOrbits_unit_circle :
  updateOrbits_position (NewOrbit 1 0 0 0 1) 0 = mkVector2D 1 0.
Proof.
  unfold updateOrbits_position. cbn [a e pomega m0 n].
  cbv zeta. rewrite !iter_keplerE, !keplerE_circular.
  replace (- (0 + 0 * 1)) with 0 by ring.
  replace (0 / 2) with 0 by field.
  replace (1 - 0) with 1 by ring. replace (1 + 0) with 1 by ring.
  rewrite sqrt_1, cos_0, sin_0.
  replace (1 * 1) with 1 by ring. replace (1 * 0) with 0 by ring.
  assert (HA : Atan2 1 0 = PI / 2).
  { unfold Atan2. destruct (Req_dec_T 1 0); [lra|].
    destruct (Req_dec_T 0 0); [|lra]. destruct (Rlt_dec 0 1); lra. }
  rewrite HA. replace (0 + 2 * (PI / 2)) with PI by field.
  rewrite cos_PI, sin_PI. f_equal; ring.
Qed.

(** C4, as stated, fails: on the circular orbit [a = 1], [e = 0],
    [pomega = 0] at mean anomaly [M = 0] (so [-M = 0] as well), the
    physical-time propagator and the simulation-clock propagator return
    opposite points. *)
Lemma propagators_not_equal :
  let o := NewOrbit 1 0 0 0 1 in
  0 < a o /\ 0 <= e o < 1
  /\ m0 o + (J2000 - J2000) * n o = 0
  /\ - (m0 o + 0 * n o) = - 0
  /\ PositionAt o J2000 <> updateOrbits_position o 0.
Proof.
  simpl. repeat split; try lra.
  rewrite PositionAt_unit_circle, updateOrbits_unit_circle.
  intros Heq. apply (f_equal X) in Heq. simpl in Heq. lra.
Qed.

(** C4, amended: for [0 <= e < 1], when the two call sites see the same
    mean anomaly up to the sign flip, the simulation-clock point is the
    mirror image of the physical-time point in the line through the origin
    perpendicular to the periapsis direction [pomega] (for [pomega = 0] it is
    [(-x, y)]). *)
Theorem propagators_mirror (o : orbit) (t t' : R) :
  0 < a o -> 0 <= e o < 1 ->
  m0 o + (t - J2000) * n o = m0 o + t' * n o ->
  X (updateOrbits_position o t')
    = - (X (PositionAt o t) * cos (2 * pomega o)
         + Y (PositionAt o t) * sin (2 * pomega o))
  /\ Y (updateOrbits_position o t')
    = - (X (PositionAt o t) * sin (2 * pomega o)
         - Y (PositionAt o t) * cos (2 * pomega o)).
Proof.
  intros Ha He HM.
  unfold PositionAt, updateOrbits_position.
  destruct (Rle_dec (a o) 0) as [Hle|_]; [lra|].
  cbv zeta. rewrite HM, !iter_keplerE, keplerE_opp.
  set (E := keplerE (m0 o + t' * n o) (e o) 10).
  replace (- E / 2) with (- (E / 2)) by field.
  rewrite !cos_neg, sin_neg.
  replace (sqrt (1 + e o) * - sin (E / 2))
    with (- (sqrt (1 + e o) * sin (E / 2))) by ring.
  set (y := sqrt (1 - e o) * cos (E / 2)).
  set (x := sqrt (1 + e o) * sin (E / 2)).
  set (r := a o * (1 - e o * cos E)).
  replace (- a o * (1 - e o * cos E)) with (- r) by (unfold r; ring).
  set (th := pomega o + 2 * Atan2 y x).
  assert (Hnz : y <> 0 \/ x <> 0) by (apply half_angle_nonzero; assumption).
  assert (Hc : cos (pomega o + 2 * Atan2 y (- x)) = cos (2 * pomega o - th)
               /\ sin (pomega o + 2 * Atan2 y (- x)) = sin (2 * pomega o - th)).
  { destruct (Atan2_opp_x y x Hnz) as [Hr|Hr]; rewrite Hr.
    - replace (pomega o + 2 * (PI - Atan2 y x))
        with (2 * pomega o - th + 2 * PI) by (unfold th; ring).
      now rewrite cos_shift_2PI, sin_shift_2PI.
    - replace (pomega o + 2 * (- PI - Atan2 y x))
        with (2 * pomega o - th - 2 * PI) by (unfold th; ring).
      now rewrite cos_unshift_2PI, sin_unshift_2PI. }
  destruct Hc as [Hcos Hsin]. simpl.
  rewrite Hcos, Hsin, cos_minus, sin_minus.
  split; ring.
Qed.

Lemma propagators_mirror_witness :
  let o := NewOrbit 2 0.5 1 0 1 in
  X (updateOrbits_position o 3)
    = - (X (PositionAt o (J2000 + 3)) * cos (2 * pomega o)
         + Y (PositionAt o (J2000 + 3)) * sin (2 * pomega o))
  /\ Y (updateOrbits_position o 3)
    = - (X (PositionAt o (J2000 + 3)) * sin (2 * pomega o)
         - Y (PositionAt o (J2000 + 3)) * cos (2 * pomega o)).
Proof.
  apply (propagators_mirror (NewOrbit 2 0.5 1 0 1) (J2000 + 3) 3);
    simpl; lra.
Defined.

End Propagation.

(** * The store and the monad *)

Section Monad.

Context {A B : Type}.

Lemma bind_eq (m : M A) (k : A -> M B) (h : heap) :
  (m ≫= k) h = match m h with
               | Ok x h' => k x h'
               | Panic msg => Panic msg
               end.
Proof. reflexivity. Qed.

Lemma load_eq (r : ref) (o : orbitable) (h : heap) :
  h !! r = Some o -> load r h = Ok o h.
Proof. intros H. unfold load. now rewrite H. Qed.

Lemma modify_eq (r : ref) (f : orbitable -> orbitable) (o : orbitable) (h : heap) :
  h !! r = Some o -> modify r f h = Ok tt (<[r := f o]> h).
Proof. intros H. unfold modify. now rewrite H. Qed.

Lemma wp_elim (m : M A) (h : heap) (Q : A -> heap -> Prop) :
  wp m h Q -> exists x h', m h = Ok x h' /\ Q x h'.
Proof. unfold wp. destruct (m h); [eauto|contradiction]. Qed.

Lemma wp_intro (m : M A) (h h' : heap) (x : A) (Q : A -> heap -> Prop) :
  m h = Ok x h' -> Q x h' -> wp m h Q.
Proof. unfold wp. now intros ->. Qed.

Lemma wp_mono (m : M A) (h : heap) (Q Q' : A -> heap -> Prop) :
  (forall x h', Q x h' -> Q' x h') -> wp m h Q -> wp m h Q'.
Proof. unfold wp. destruct (m h); auto. Qed.

Lemma wp_bind (m : M A) (k : A -> M B) (h : heap) (Q : B -> heap -> Prop) :
  wp m h (fun x h' => wp (k x) h' Q) -> wp (m ≫= k) h Q.
Proof. unfold wp. rewrite bind_eq. destruct (m h); auto. Qed.

End Monad.

Lemma wp_ret {A} (x : A) (h : heap) (Q : A -> heap -> Prop) :
  Q x h -> wp (mret x) h Q.
Proof. auto. Qed.

Lemma wp_load (r : ref) (o : orbitable) (h : heap) Q :
  h !! r = Some o -> Q o h -> wp (load r) h Q.
Proof. intros H HQ. unfold wp. now rewrite (load_eq _ _ _ H). Qed.

Lemma wp_modify (r : ref) f (o : orbitable) (h : heap) Q :
  h !! r = Some o -> Q tt (<[r := f o]> h) -> wp (modify r f) h Q.
Proof. intros H HQ. unfold wp. now rewrite (modify_eq _ _ _ _ H). Qed.

(** A cell that was written holds what was written. *)
Lemma lookup_insert_same (h : heap) (r : ref) (o o' : orbitable) :
  h !! r = Some o -> <[r := o']> h !! r = Some o'.
Proof. intros H. apply list_lookup_insert_eq. eapply lookup_lt_Some, H. Qed.

(** * The first loop *)

Lemma touch_a_of c mc o : a_of (touch c mc o) = a_of o.
Proof. reflexivity. Qed.

Lemma touch_mass c mc o : mass (touch c mc o) = mass o.
Proof. reflexivity. Qed.

(** One round of the first loop writes [touch] to the satellite and updates
    the running maximum. *)
Lemma scanBody_eq (c s : ref) (st : R * option ref) (h : heap) (cb body : orbitable) :
  h !! c = Some cb -> h !! s = Some body ->
  scanBody c st s h
  = Ok (if Rlt_dec (fst st) (offset (mass cb) body)
        then (offset (mass cb) body, Some s) else st)
       (<[s := touch c (mass cb) body]> h).
Proof.
  intros Hc Hs. unfold scanBody.
  rewrite bind_eq, (modify_eq _ _ _ _ Hs).
  set (h1 := <[s := set_parent (Some c) body]> h).
  assert (Hs1 : h1 !! s = Some (set_parent (Some c) body))
    by (eapply lookup_insert_same, Hs).
  assert (Hc1 : exists cb1, h1 !! c = Some cb1 /\ mass cb1 = mass cb).
  { destruct (decide (c = s)) as [->|Hne].
    - exists (set_parent (Some s) body). split; [exact Hs1|].
      rewrite Hs in Hc. now inversion Hc.
    - exists cb. split; [|reflexivity].
      unfold h1. now rewrite list_lookup_insert_ne by congruence. }
  destruct Hc1 as (cb1 & Hc1 & Hm1).
  rewrite bind_eq, (load_eq _ _ _ Hs1), bind_eq, (load_eq _ _ _ Hc1).
  rewrite bind_eq, (modify_eq _ _ _ _ Hs1).
  unfold h1 at 1. rewrite list_insert_insert_eq.
  set (h2 := <[s := _]> h).
  assert (Hs2 : h2 !! s = Some (touch c (mass cb) body)).
  { unfold h2. rewrite (lookup_insert_same _ _ _ _ Hs).
    unfold touch. now rewrite Hm1. }
  assert (Hc2 : exists cb2, h2 !! c = Some cb2 /\ mass cb2 = mass cb).
  { destruct (decide (c = s)) as [->|Hne].
    - eexists. split; [exact Hs2|].
      rewrite Hs in Hc. now inversion Hc.
    - exists cb. split; [|reflexivity].
      unfold h2. now rewrite list_lookup_insert_ne by congruence. }
  destruct Hc2 as (cb2 & Hc2 & Hm2).
  rewrite bind_eq, (load_eq _ _ _ Hs2), bind_eq, (load_eq _ _ _ Hc2).
  cbv zeta. rewrite Hm2, touch_a_of, touch_mass.
  fold (offset (mass cb) body).
  assert (Hh : h2 = <[s := touch c (mass cb) body]> h).
  { unfold h2, touch. now rewrite Hm1. }
  rewrite Hh.
  destruct (Rlt_dec (fst st) (offset (mass cb) body)); reflexivity.
Qed.

Lemma dominantFrom_insert (h : heap) (mc : R) (s : ref) (o o' : orbitable)
    (l : list ref) (st : R * option ref) :
  h !! s = Some o -> a_of o' = a_of o -> mass o' = mass o ->
  dominantFrom (<[s := o']> h) mc l st = dominantFrom h mc l st.
Proof.
  intros Hs Ha Hm. revert st.
  induction l as [|x l IH]; intros st; simpl; [reflexivity|].
  destruct (decide (s = x)) as [<-|Hne].
  - rewrite (lookup_insert_same _ _ _ _ Hs), Hs.
    unfold offset. rewrite Ha, Hm. apply IH.
  - rewrite list_lookup_insert_ne by assumption.
    destruct (h !! x); [apply IH|reflexivity].
Qed.

(** The first loop over valid pointers returns: it leaves in the locals the
    running maximum of the offsets, and in the store [touch] on every
    satellite of the slice and nothing else. *)
Lemma scan_wp (c : ref) (mc : R) (l : list ref) :
  forall (st : R * option ref) (h : heap),
    (exists cb, h !! c = Some cb /\ mass cb = mc) ->
    (forall s, s ∈ l -> is_Some (h !! s)) ->
    wp (foldM (scanBody c) l st) h (fun st' h' =>
      st' = dominantFrom h mc l st
      /\ length h' = length h
      /\ forall r, h' !! r
           = (if decide (r ∈ l) then touch c mc else fun o => o) <$> h !! r).
Proof.
  induction l as [|s l IH]; intros st h (cb & Hc & Hmc) Hval.
  - apply wp_ret. repeat split. intros r.
    rewrite decide_False by apply not_elem_of_nil.
    now destruct (h !! r).
  - destruct (Hval s) as [body Hs]; [left|].
    simpl foldM. apply wp_bind.
    eapply wp_intro; [apply (scanBody_eq _ _ _ _ _ _ Hc Hs)|].
    rewrite Hmc.
    set (h1 := <[s := touch c mc body]> h).
    set (st1 := if Rlt_dec _ _ then _ else _).
    eapply wp_mono; [|apply (IH st1 h1)].
    + intros st' h' (Hst & Hlen & Hlk). repeat split.
      * rewrite Hst. simpl. rewrite Hs. fold st1.
        apply (dominantFrom_insert h mc s body); auto.
      * rewrite Hlen. apply length_insert.
      * intros r. rewrite Hlk. unfold h1.
        destruct (decide (r = s)) as [->|Hne].
        -- rewrite (lookup_insert_same _ _ _ _ Hs), Hs.
           rewrite (decide_True (P := s ∈ s :: l)) by left.
           destruct (decide (s ∈ l)); reflexivity.
        -- rewrite list_lookup_insert_ne by congruence.
           destruct (decide (r ∈ l)) as [Hin|Hin].
           ++ rewrite decide_True by (now right). reflexivity.
           ++ rewrite decide_False; [reflexivity|].
              rewrite elem_of_cons. tauto.
    + destruct (decide (c = s)) as [->|Hne].
      * exists (touch s mc body). split.
        -- apply (lookup_insert_same _ _ _ _ Hs).
        -- rewrite touch_mass. rewrite Hs in Hc. inversion Hc. now subst.
      * exists cb. split; [|assumption].
        unfold h1. now rewrite list_lookup_insert_ne by congruence.
    + intros x Hx. unfold h1.
      apply list_lookup_insert_is_Some. apply Hval. now right.
Qed.

(** * The second loop *)

Lemma splitBody_eq (bc d s : ref) (st : list ref * list ref) (h : heap)
    (db body : orbitable) :
  h !! d = Some db -> h !! s = Some body ->
  splitBody bc (Some d) st s h
  = if Rlt_dec (a_of body) (a_of db - soi db)
    then Ok (fst st ++ [s], snd st) h
    else Ok (fst st, snd st ++ [s]) (<[s := set_parent (Some bc) body]> h).
Proof.
  intros Hd Hs. unfold splitBody, deref.
  rewrite bind_eq, (load_eq _ _ _ Hs), bind_eq, (load_eq _ _ _ Hd).
  destruct (Rlt_dec (a_of body) (a_of db - soi db)); [reflexivity|].
  now rewrite bind_eq, (modify_eq _ _ _ _ Hs).
Qed.

(** The second loop over valid pointers returns: it appends to [inner] the
    satellites whose key is below the threshold and to [outer] the others,
    in order, and re-parents the others to the barycenter. *)
Lemma split_wp (bc d : ref) (K : ref -> R) (thr : R) (l : list ref) :
  forall (st : list ref * list ref) (h : heap),
    (exists db, h !! d = Some db /\ a_of db - soi db = thr) ->
    (forall s, s ∈ l -> exists o, h !! s = Some o /\ a_of o = K s) ->
    wp (foldM (splitBody bc (Some d)) l st) h (fun st' h' =>
      st' = (fst st ++ filter (fun s => K s < thr) l,
             snd st ++ filter (fun s => ~ K s < thr) l)
      /\ length h' = length h
      /\ forall r, h' !! r
           = (if decide (r ∈ l /\ ~ K r < thr)
              then set_parent (Some bc) else fun o => o) <$> h !! r).
Proof.
  induction l as [|s l IH]; intros st h (db & Hd & Hthr) Hval.
  - apply wp_ret. rewrite !filter_nil, !app_nil_r. repeat split.
    + now destruct st.
    + intros r. rewrite decide_False; [now destruct (h !! r)|].
      intros [Hin _]. now apply not_elem_of_nil in Hin.
  - destruct (Hval s) as (body & Hs & Hk); [left|].
    simpl foldM. apply wp_bind.
    unfold wp at 1. rewrite (splitBody_eq _ _ _ _ _ _ _ Hd Hs), Hk, Hthr.
    destruct (Rlt_dec (K s) thr) as [Hlt|Hge]; cbv beta iota.
    + eapply wp_mono; [|apply (IH (fst st ++ [s], snd st) h)].
      * intros st' h' (Hst & Hlen & Hlk). repeat split; [|assumption|].
        -- rewrite Hst. simpl fst. simpl snd.
           rewrite filter_cons_True by assumption.
           rewrite filter_cons_False by tauto.
           now rewrite <- app_assoc.
        -- intros r. rewrite Hlk.
           destruct (decide (r ∈ l /\ ~ K r < thr)) as [Hy|Hn].
           ++ rewrite decide_True; [reflexivity|].
              split; [now right|tauto].
           ++ rewrite decide_False; [reflexivity|].
              intros [Hin Hnlt]. apply elem_of_cons in Hin as [->|Hin]; tauto.
      * eauto.
      * intros x Hx. apply Hval. now right.
    + set (h1 := <[s := set_parent (Some bc) body]> h).
      eapply wp_mono; [|apply (IH (fst st, snd st ++ [s]) h1)].
      * intros st' h' (Hst & Hlen & Hlk). repeat split.
        -- rewrite Hst. simpl fst. simpl snd.
           rewrite filter_cons_False by tauto.
           rewrite (filter_cons_True (fun s0 => ~ K s0 < thr)) by assumption.
           now rewrite <- app_assoc.
        -- rewrite Hlen. apply length_insert.
        -- intros r. rewrite Hlk. unfold h1.
           destruct (decide (r = s)) as [->|Hne].
           ++ rewrite (lookup_insert_same _ _ _ _ Hs), Hs.
              rewrite (decide_True (P := s ∈ s :: l /\ _)) by (split; [left|assumption]).
              destruct (decide (s ∈ l /\ ~ K s < thr)); reflexivity.
           ++ rewrite list_lookup_insert_ne by congruence.
              destruct (decide (r ∈ l /\ ~ K r < thr)) as [Hy|Hn].
              ** rewrite decide_True; [reflexivity|].
                 split; [now right|tauto].
              ** rewrite decide_False; [reflexivity|].
                 intros [Hin Hnlt].
                 apply elem_of_cons in Hin as [->|Hin]; tauto.
      * destruct (decide (d = s)) as [->|Hne].
        -- exists (set_parent (Some bc) body). split.
           ++ apply (lookup_insert_same _ _ _ _ Hs).
           ++ rewrite Hs in Hd. inversion Hd. now subst.
        -- exists db. split; [|assumption].
           unfold h1. now rewrite list_lookup_insert_ne by congruence.
      * intros x Hx. unfold h1.
        destruct (decide (x = s)) as [->|Hne].
        -- exists (set_parent (Some bc) body). split.
           ++ apply (lookup_insert_same _ _ _ _ Hs).
           ++ exact Hk.
        -- rewrite list_lookup_insert_ne by congruence.
           apply Hval. now right.
Qed.

(** * The sort *)

Section Sort.

Variable h : heap.

Lemma insertByA_perm (s : ref) (l : list ref) : insertByA h s l ≡ₚ s :: l.
Proof.
  induction l as [|x l IH]; simpl; [reflexivity|].
  destruct (Rlt_dec (keyA h x) (keyA h s)); [|reflexivity].
  rewrite IH. apply perm_swap.
Qed.

Lemma sortByA_perm (l : list ref) : sortByA h l ≡ₚ l.
Proof.
  induction l as [|x l IH]; simpl; [reflexivity|].
  rewrite insertByA_perm. now rewrite IH.
Qed.

Lemma elem_of_sortByA (s : ref) (l : list ref) : s ∈ sortByA h l <-> s ∈ l.
Proof. now rewrite sortByA_perm. Qed.

Lemma insertByA_HdRel (k : R) (s : ref) (l : list ref) :
  HdRel Rle k (map (keyA h) l) -> k <= keyA h s ->
  HdRel Rle k (map (keyA h) (insertByA h s l)).
Proof.
  destruct l as [|x l]; simpl; intros Hhd Hk.
  - now constructor.
  - destruct (Rlt_dec (keyA h x) (keyA h s)); simpl.
    + inversion Hhd; subst. now constructor.
    + now constructor.
Qed.

Lemma insertByA_sorted (s : ref) (l : list ref) :
  sortedBy (keyA h) l -> sortedBy (keyA h) (insertByA h s l).
Proof.
  unfold sortedBy. induction l as [|x l IH]; simpl; intros Hs.
  - repeat constructor.
  - inversion Hs as [|? ? Hs' Hhd]; subst.
    destruct (Rlt_dec (keyA h x) (keyA h s)) as [Hlt|Hge]; simpl.
    + constructor; [now apply IH|].
      apply insertByA_HdRel; [assumption|lra].
    + constructor; [assumption|]. constructor. lra.
Qed.

(** The sort returns its input in ascending order of [a]. *)
Lemma sortByA_sorted (l : list ref) : sortedBy (keyA h) (sortByA h l).
Proof.
  induction l as [|x l IH]; simpl.
  - constructor.
  - now apply insertByA_sorted.
Qed.

End Sort.

Lemma Forall_map_filter (K : ref -> R) (P : ref -> Prop)
    `{!forall x, Decision (P x)} (Q : R -> Prop) (l : list ref) :
  Forall Q (map K l) -> Forall Q (map K (filter P l)).
Proof.
  induction l as [|x l IH]; simpl; intros HF; [constructor|].
  inversion HF; subst.
  destruct (decide (P x)).
  - rewrite filter_cons_True by assumption. simpl. constructor; auto.
  - rewrite filter_cons_False by assumption. auto.
Qed.

(** A filtered sorted list is sorted. *)
Lemma sortedBy_filter (K : ref -> R) (P : ref -> Prop)
    `{!forall x, Decision (P x)} (l : list ref) :
  sortedBy K l -> sortedBy K (filter P l).
Proof.
  unfold sortedBy. intros Hs.
  apply StronglySorted_Sorted.
  apply Sorted_StronglySorted in Hs; [|intros x y z; apply Rle_trans].
  induction l as [|x l IH]; simpl in *; [constructor|].
  inversion Hs; subst.
  destruct (decide (P x)).
  - rewrite filter_cons_True by assumption. simpl.
    constructor; [auto|]. now apply Forall_map_filter.
  - rewrite filter_cons_False by assumption. auto.
Qed.

(** The key of a sorted list depends only on the keys of its members. *)
Lemma sortedBy_ext (K K' : ref -> R) (l : list ref) :
  (forall s, s ∈ l -> K s = K' s) -> sortedBy K l -> sortedBy K' l.
Proof.
  unfold sortedBy. intros Hk.
  assert (Heq : map K l = map K' l).
  { induction l as [|x l IH]; simpl; [reflexivity|].
    rewrite Hk by left. rewrite IH; [reflexivity|].
    intros s Hs. apply Hk. now right. }
  now rewrite Heq.
Qed.

(** * [NewSystem], case by case *)

Lemma elems_sorted (h : heap) (sats : slice) :
  elems (option_map (sortByA h) sats) = sortByA h (elems sats).
Proof. now destruct sats. Qed.

(** The precondition fails: the central body already has satellites. *)
Lemma NewSystem_already_set (h : heap) (c : ref) (sats : slice)
    (cb : orbitable) (l : list ref) :
  h !! c = Some cb -> satellites cb = Some l ->
  NewSystem c sats h = Panic "Satellites already set".
Proof.
  intros Hc Hsat. unfold NewSystem.
  rewrite bind_eq, (load_eq _ _ _ Hc), Hsat. reflexivity.
Qed.

(** The running maximum stays below the threshold: the central body is the
    root. *)
Lemma NewSystem_root (h : heap) (c : ref) (sats : slice) (cb : orbitable) :
  h !! c = Some cb -> satellites cb = None ->
  (forall s, s ∈ elems sats -> is_Some (h !! s)) ->
  c ∉ elems sats ->
  fst (dominantFrom h (mass cb) (sortByA h (elems sats)) (0, None))
    < 0.5 * radius cb ->
  exists h',
    NewSystem c sats h = Ok c h'
    /\ length h' = length h
    /\ h' !! c = Some (set_satellites (option_map (sortByA h) sats)
                         (set_soi (-1) cb))
    /\ (forall s o, s ∈ elems sats -> h !! s = Some o ->
          h' !! s = Some (touch c (mass cb) o))
    /\ (forall r, r ∉ elems sats -> r <> c -> h' !! r = h !! r).
Proof.
  intros Hc Hsat Hval Hnin Hlt.
  cut (wp (NewSystem c sats) h (fun x h' =>
         x = c
         /\ length h' = length h
         /\ h' !! c = Some (set_satellites (option_map (sortByA h) sats)
                              (set_soi (-1) cb))
         /\ (forall s o, s ∈ elems sats -> h !! s = Some o ->
               h' !! s = Some (touch c (mass cb) o))
         /\ (forall r, r ∉ elems sats -> r <> c -> h' !! r = h !! r))).
  { intros Hwp. apply wp_elim in Hwp as (x & h' & Heq & -> & HQ).
    exists h'. split; assumption. }
  unfold NewSystem.
  apply wp_bind. eapply wp_load; [exact Hc|]. rewrite Hsat.
  apply wp_bind. eapply wp_intro; [reflexivity|].
  rewrite elems_sorted.
  apply wp_bind. eapply wp_mono; [|apply (scan_wp c (mass cb))]; cycle 1.
  { eauto. }
  { intros s Hs. apply Hval. now apply elem_of_sortByA in Hs. }
  intros st h1 (-> & Hlen & Hlk).
  assert (Hc1 : h1 !! c = Some cb).
  { rewrite Hlk, Hc. rewrite decide_False; [reflexivity|].
    now rewrite elem_of_sortByA. }
  apply wp_bind. eapply wp_load; [exact Hc1|].
  destruct (Rlt_dec _ _) as [_|Hn]; [|contradiction].
  apply wp_bind. eapply wp_modify; [exact Hc1|].
  apply wp_bind. eapply wp_modify; [eapply lookup_insert_same, Hc1|].
  apply wp_ret. split; [reflexivity|].
  rewrite list_insert_insert_eq. repeat split.
  - now rewrite length_insert.
  - apply (lookup_insert_same _ _ _ _ Hc1).
  - intros s o Hs Ho.
    rewrite list_lookup_insert_ne by (intros ->; contradiction).
    rewrite Hlk, Ho. rewrite decide_True; [reflexivity|].
    now apply elem_of_sortByA.
  - intros r Hr Hne.
    rewrite list_lookup_insert_ne by congruence.
    rewrite Hlk. rewrite decide_False; [now destruct (h !! r)|].
    now rewrite elem_of_sortByA.
Qed.

(** The running maximum either is the initial one, or belongs to a satellite
    of the slice whose offset it is. *)
Lemma dominantFrom_inv (h : heap) (mc : R) (l : list ref) :
  forall st,
    dominantFrom h mc l st = st
    \/ exists d o, snd (dominantFrom h mc l st) = Some d
         /\ d ∈ l /\ h !! d = Some o
         /\ fst (dominantFrom h mc l st) = offset mc o
         /\ fst st < offset mc o.
Proof.
  induction l as [|s l IH]; intros st; simpl; [now left|].
  destruct (h !! s) as [o|] eqn:Hs; [|now left].
  destruct (Rlt_dec (fst st) (offset mc o)) as [Hlt|Hge].
  - destruct (IH (offset mc o, Some s)) as [Heq|(d & o' & Hd & Hin & Ho & Hf & Hl)].
    + right. exists s, o. rewrite Heq. simpl. repeat split; auto. left.
    + right. exists d, o'. repeat split; auto; [now right|].
      simpl in Hl. lra.
  - destruct (IH st) as [Heq|(d & o' & Hd & Hin & Ho & Hf & Hl)].
    + now left.
    + right. exists d, o'. repeat split; auto. now right.
Qed.

(** The running maximum bounds its initial value and every offset. *)
Lemma dominantFrom_upper (h : heap) (mc : R) (l : list ref) :
  forall st,
    fst st <= fst (dominantFrom h mc l st)
    /\ ((forall s, s ∈ l -> is_Some (h !! s)) ->
        forall s o, s ∈ l -> h !! s = Some o ->
          offset mc o <= fst (dominantFrom h mc l st)).
Proof.
  induction l as [|s l IH]; intros st; simpl.
  - split; [lra|]. intros _ s o Hs. now apply not_elem_of_nil in Hs.
  - destruct (h !! s) as [o|] eqn:Hs.
    + set (st1 := if Rlt_dec _ _ then _ else _).
      destruct (IH st1) as [Hlow Hup].
      assert (Hst1 : fst st <= fst st1 /\ offset mc o <= fst st1).
      { unfold st1. destruct (Rlt_dec (fst st) (offset mc o)); simpl; lra. }
      split; [lra|].
      intros Hval x ox Hx Hox.
      apply elem_of_cons in Hx as [->|Hx].
      * rewrite Hs in Hox. inversion Hox; subst. lra.
      * assert (Hval' : forall y, y ∈ l -> is_Some (h !! y))
          by (intros y Hy; apply Hval; now right).
        apply (Hup Hval' x ox Hx Hox).
    + split; [lra|]. intros Hval. destruct (Hval s) as [? ?]; [left|congruence].
Qed.

Ltac heap_lookup :=
  repeat match goal with
  | |- context [<[?i := ?x]> ?h !! ?i] =>
      rewrite (list_lookup_insert_eq h i x) by (rewrite ?length_insert; lia)
  | |- context [<[?i := ?x]> ?h !! ?j] =>
      rewrite (list_lookup_insert_ne h i j x) by lia
  end.

Ltac wp_load_step :=
  apply wp_bind; eapply wp_load;
  [heap_lookup; first [eassumption | reflexivity]|].

Ltac wp_modify_step :=
  apply wp_bind; eapply wp_modify;
  [heap_lookup; first [eassumption | reflexivity]|].

(** The running maximum reaches the threshold: a barycenter is inserted.
    The final store is given cell by cell from the initial one. *)
Lemma NewSystem_barycenter (h : heap) (c d : ref) (l0 : list ref)
    (cb db : orbitable) (maxR : R) :
  h !! c = Some cb -> satellites cb = None ->
  (forall s, s ∈ l0 -> is_Some (h !! s)) ->
  c ∉ l0 ->
  dominantFrom h (mass cb) (sortByA h l0) (0, None) = (maxR, Some d) ->
  d ∈ l0 -> h !! d = Some db ->
  ~ maxR < 0.5 * radius cb ->
  let bc := length h in
  let thr := threshold (mass cb) db in
  exists h',
    NewSystem c (Some l0) h = Ok bc h'
    /\ length h' = S (length h)
    /\ h' !! bc
       = Some (mkOrbitable (orb cb) (barycenterName (name cb) (name db))
                 None (Some (c :: outerOf h thr (sortByA h l0)))
                 maxR (mass cb + mass db) (-1) Barycenter)
    /\ h' !! c
       = Some (mkOrbitable
                 (NewOrbit maxR (e (orb db)) (pomega (orb db))
                    (m0 (orb db) + PI) (n (orb db)))
                 (name cb) (parent cb)
                 (Some (innerOf h thr (sortByA h l0)))
                 (radius cb) (mass cb) thr (kind cb))
    /\ h' !! d
       = Some (mkOrbitable (set_a (a_of db - maxR) (orb db)) (name db)
                 (Some (side h thr c bc d)) (satellites db)
                 (radius db) (mass db)
                 (a_of db * Pow (mass db / mass cb) 0.4) (kind db))
    /\ (forall s o, s ∈ l0 -> s <> d -> h !! s = Some o ->
          h' !! s = Some (set_parent (Some (side h thr c bc s))
                            (touch c (mass cb) o)))
    /\ (forall r, r ∉ l0 -> r <> c -> r <> bc -> h' !! r = h !! r).
Proof.
  intros Hc Hsat Hval Hnin Hdom Hdin Hd Hge bc thr.
  set (l := sortByA h l0) in *.
  assert (Hl : forall s, s ∈ l <-> s ∈ l0) by (intros s; apply elem_of_sortByA).
  cut (wp (NewSystem c (Some l0)) h (fun x h' =>
         x = bc
         /\ length h' = S (length h)
         /\ h' !! bc
            = Some (mkOrbitable (orb cb) (barycenterName (name cb) (name db))
                      None (Some (c :: outerOf h thr l))
                      maxR (mass cb + mass db) (-1) Barycenter)
         /\ h' !! c
            = Some (mkOrbitable
                      (NewOrbit maxR (e (orb db)) (pomega (orb db))
                         (m0 (orb db) + PI) (n (orb db)))
                      (name cb) (parent cb) (Some (innerOf h thr l))
                      (radius cb) (mass cb) thr (kind cb))
         /\ h' !! d
            = Some (mkOrbitable (set_a (a_of db - maxR) (orb db)) (name db)
                      (Some (side h thr c bc d)) (satellites db)
                      (radius db) (mass db)
                      (a_of db * Pow (mass db / mass cb) 0.4) (kind db))
         /\ (forall s o, s ∈ l0 -> s <> d -> h !! s = Some o ->
               h' !! s = Some (set_parent (Some (side h thr c bc s))
                                 (touch c (mass cb) o)))
         /\ (forall r, r ∉ l0 -> r <> c -> r <> bc -> h' !! r = h !! r))).
  { intros Hwp. apply wp_elim in Hwp as (x & h' & Heq & -> & HQ).
    exists h'. split; assumption. }
  unfold NewSystem.
  apply wp_bind. eapply wp_load; [exact Hc|]. rewrite Hsat.
  apply wp_bind. eapply wp_intro; [reflexivity|].
  simpl elems. fold l.
  apply wp_bind. eapply wp_mono; [|apply (scan_wp c (mass cb))]; cycle 1.
  { eauto. }
  { intros s Hs. apply Hval. now apply Hl. }
  intros st h1 (-> & Hlen1 & Hlk1). rewrite Hdom. simpl fst. simpl snd.
  assert (Hc1 : h1 !! c = Some cb).
  { rewrite Hlk1, Hc. rewrite decide_False; [reflexivity|]. now rewrite Hl. }
  apply wp_bind. eapply wp_load; [exact Hc1|].
  destruct (Rlt_dec maxR (0.5 * radius cb)) as [Hlt|_]; [contradiction|].
  apply wp_bind. eapply wp_intro; [reflexivity|].
  rewrite Hlen1. fold bc.
  set (h2 := h1 ++ [zeroOrbitable Barycenter]).
  assert (Hlk2 : forall r : nat, (r < bc)%nat -> h2 !! r = h1 !! r).
  { intros r Hr. unfold h2. apply lookup_app_l. now rewrite Hlen1. }
  assert (Hbc2 : h2 !! bc = Some (zeroOrbitable Barycenter)).
  { unfold h2, bc. rewrite <- Hlen1. apply list_lookup_middle. reflexivity. }
  assert (Hlt_l : forall s : nat, s ∈ l0 -> (s < bc)%nat).
  { intros s Hs. apply lookup_lt_is_Some. now apply Hval. }
  assert (Hcbc : (c < bc)%nat) by (eapply lookup_lt_Some, Hc).
  assert (Hdbc : (d < bc)%nat) by (eapply lookup_lt_Some, Hd).
  assert (Hcd : c <> d) by (intros ->; contradiction).
  assert (Hs2 : forall s o, s ∈ l0 -> h !! s = Some o ->
                  h2 !! s = Some (touch c (mass cb) o)).
  { intros s o Hs Ho. rewrite Hlk2 by auto. rewrite Hlk1, Ho.
    rewrite decide_True; [reflexivity|]. now apply Hl. }
  apply wp_bind.
  eapply wp_mono; [|apply (split_wp bc d (keyA h) thr l)]; cycle 1.
  { exists (touch c (mass cb) db). split; [now apply Hs2|reflexivity]. }
  { intros s Hs. apply Hl in Hs. destruct (Hval s Hs) as [o Ho].
    exists (touch c (mass cb) o). split; [now apply Hs2|].
    unfold keyA. now rewrite Ho. }
  intros io h3 (-> & Hlen3 & Hlk3). simpl fst. simpl snd.
  fold (innerOf h thr l). fold (outerOf h thr l).
  assert (Hlen3' : length h3 = S bc).
  { rewrite Hlen3. unfold h2. rewrite length_app, Hlen1. simpl. unfold bc. lia. }
  assert (Hbc3 : h3 !! bc = Some (zeroOrbitable Barycenter)).
  { rewrite Hlk3, Hbc2. rewrite decide_False; [reflexivity|].
    intros [Hin _]. apply Hl, Hlt_l in Hin. lia. }
  assert (Hc3 : h3 !! c = Some cb).
  { rewrite Hlk3, Hlk2, Hc1 by assumption.
    rewrite decide_False; [reflexivity|]. intros [Hin _]. now apply Hl in Hin. }
  assert (Hs3 : forall s o, s ∈ l0 -> h !! s = Some o ->
                  h3 !! s = Some (set_parent (Some (side h thr c bc s))
                                    (touch c (mass cb) o))).
  { intros s o Hs Ho. rewrite Hlk3, (Hs2 s o Hs Ho). unfold side.
    destruct (decide (keyA h s < thr)) as [Hlt|Hnlt].
    - rewrite decide_False by tauto. reflexivity.
    - rewrite decide_True; [reflexivity|]. split; [now apply Hl|assumption]. }
  pose proof (Hs3 d db Hdin Hd) as Hd3.
  assert (Hr3 : forall r, r ∉ l0 -> r <> bc -> h3 !! r = h !! r).
  { intros r Hr Hne. rewrite Hlk3.
    rewrite decide_False by (intros [Hin _]; now apply Hl in Hin).
    destruct (decide (r < bc)%nat) as [Hlt|Hnlt].
    - rewrite Hlk2, Hlk1 by assumption.
      rewrite decide_False by (now rewrite Hl). now destruct (h !! r).
    - assert (Hn3 : h2 !! r = None).
      { apply lookup_ge_None_2. rewrite <- Hlen3, Hlen3'. lia. }
      rewrite Hn3. symmetry. apply lookup_ge_None_2. unfold bc in *. lia. }
  simpl app.
  wp_modify_step.
  wp_load_step.
  wp_modify_step.
  wp_load_step.
  unfold deref, modify_opt.
  wp_load_step.
  wp_modify_step.
  wp_modify_step.
  wp_load_step.
  wp_load_step.
  wp_modify_step.
  wp_modify_step.
  wp_load_step.
  wp_modify_step.
  wp_modify_step.
  wp_load_step.
  wp_modify_step.
  wp_modify_step.
  wp_modify_step.
  wp_modify_step.
  apply wp_ret.
  split; [reflexivity|].
  split; [now rewrite !length_insert|].
  split; [heap_lookup; reflexivity|].
  split; [heap_lookup; reflexivity|].
  split; [heap_lookup; reflexivity|].
  split.
  - intros s o Hs Hne Ho.
    assert (s <> c) by (intros ->; contradiction).
    pose proof (Hlt_l s Hs).
    heap_lookup. now apply Hs3.
  - intros r Hr Hne1 Hne2.
    assert (r <> d) by (intros ->; contradiction).
    heap_lookup. now apply Hr3.
Qed.

(** * Well-formed calls *)

Lemma keyA_lookup (h : heap) (s : ref) (o : orbitable) :
  h !! s = Some o -> keyA h s = a_of o.
Proof. intros H. unfold keyA. now rewrite H. Qed.

Lemma wellFormed_valid (h : heap) (c : ref) (cb : orbitable) (l0 : list ref) :
  wellFormed h c cb l0 -> forall s, s ∈ l0 -> is_Some (h !! s).
Proof.
  intros (_ & _ & _ & _ & _ & Hval) s Hs.
  destruct (Hval s Hs) as (o & Ho & _). now exists o.
Qed.

(** The dominant satellite is never an inner one: its sphere of influence
    is not negative. *)
Lemma dominant_not_inner (mc : R) (db : orbitable) :
  0 < offset mc db -> ~ a_of db < threshold mc db.
Proof.
  unfold offset, threshold, Pow. intros Hoff Hlt.
  destruct (Rle_dec (mass db / mc) 0) as [Hle|Hgt]; [lra|].
  assert (Hp : 0 < Rpower (mass db / mc) 0.4) by apply exp_pos.
  assert (Ha : a_of db < 0) by nra.
  assert (Hq : 0 < mass db / mc) by lra.
  assert (Hinv : 0 < mc / mass db).
  { replace (mc / mass db) with (/ (mass db / mc)).
    - now apply Rinv_0_lt_compat.
    - unfold Rdiv. rewrite Rinv_mult, Rinv_inv. ring. }
  assert (Hden : 0 < / (1 + mc / mass db)) by (apply Rinv_0_lt_compat; lra).
  unfold Rdiv in Hoff at 1. nra.
Qed.

(** With a positive central radius, a maximum that reaches the threshold
    belongs to a dominant satellite. *)
Lemma dominant_exists (h : heap) (mc rad : R) (l0 : list ref) :
  0 < rad ->
  ~ fst (dominantFrom h mc (sortByA h l0) (0, None)) < 0.5 * rad ->
  exists d db,
    dominantFrom h mc (sortByA h l0) (0, None) = (offset mc db, Some d)
    /\ d ∈ l0 /\ h !! d = Some db /\ 0 < offset mc db.
Proof.
  intros Hrad Hge.
  destruct (dominantFrom_inv h mc (sortByA h l0) (0, None))
    as [Heq|(d & db & Hd & Hin & Ho & Hf & Hpos)].
  - rewrite Heq in Hge. simpl in Hge. lra.
  - exists d, db. repeat split; auto.
    + rewrite <- Hf, <- Hd. now destruct (dominantFrom _ _ _ _).
    + now apply elem_of_sortByA in Hin.
Qed.

(** A well-formed call returns, by one of the two cases. *)
Lemma wellFormed_cases (h : heap) (c : ref) (cb : orbitable) (l0 : list ref) :
  wellFormed h c cb l0 ->
  let maxR := fst (dominantFrom h (mass cb) (sortByA h l0) (0, None)) in
  maxR < 0.5 * radius cb
  \/ exists d db,
       dominantFrom h (mass cb) (sortByA h l0) (0, None) = (maxR, Some d)
       /\ d ∈ l0 /\ h !! d = Some db
       /\ maxR = offset (mass cb) db /\ 0 < maxR
       /\ ~ maxR < 0.5 * radius cb.
Proof.
  intros (_ & _ & Hrad & _) maxR.
  destruct (Rlt_dec maxR (0.5 * radius cb)) as [Hlt|Hnlt]; [now left|right].
  destruct (dominant_exists h (mass cb) (radius cb) l0 Hrad Hnlt)
    as (d & db & Hdom & Hin & Hd & Hpos).
  assert (HmaxR : maxR = offset (mass cb) db).
  { unfold maxR. now rewrite Hdom. }
  exists d, db. rewrite HmaxR. repeat split; auto. now rewrite <- HmaxR.
Qed.

(** * The sample systems *)

Lemma Pow_1 (y : R) : Pow 1 y = 1.
Proof.
  unfold Pow. destruct (Rle_dec 1 0); [lra|].
  unfold Rpower. rewrite ln_1, Rmult_0_r. apply exp_0.
Qed.

(** The sample stores are what [NewBody] builds from the empty store. *)
Lemma planetMoon_built :
  (p ← NewBody Planet "P" 1e6 1e24 (NewOrbit 0 0 0 0 0);
   m ← NewBody Moon "M" 1 1e18 (NewOrbit 1 0 0 0 1);
   mret (p, m)) [] = Ok (0%nat, 1%nat) planetMoon.
Proof. reflexivity. Qed.

Lemma twins_built :
  (x ← NewBody Planet "A" 1 1 (NewOrbit 0 0 0 0 0);
   y ← NewBody Planet "B" 1 1 (NewOrbit 2 0 0 0 1);
   mret (x, y)) [] = Ok (0%nat, 1%nat) twins.
Proof. reflexivity. Qed.

Lemma twinsAndPebble_built :
  (x ← NewBody Planet "A" 1 1 (NewOrbit 0 0 0 0 0);
   z ← NewBody Moon "C" (1 / 10) (1 / 10) (NewOrbit (1 / 2) 0 0 0 1);
   y ← NewBody Planet "B" 1 1 (NewOrbit 2 0 0 0 1);
   mret (x, z, y)) [] = Ok (0%nat, 1%nat, 2%nat) twinsAndPebble.
Proof. reflexivity. Qed.

Lemma planetMoon_wellFormed : wellFormed planetMoon 0%nat heavyPlanet [1%nat].
Proof.
  repeat split; simpl; try lra.
  - intros H. apply list_elem_of_singleton in H. lia.
  - intros s Hs. apply list_elem_of_singleton in Hs as ->.
    exists lightMoon. split; [reflexivity|simpl; lra].
Qed.

Lemma planetMoon_max :
  fst (dominantFrom planetMoon (mass heavyPlanet) (sortByA planetMoon [1%nat])
         (0, None)) < 0.5 * radius heavyPlanet.
Proof.
  simpl. unfold offset, a_of. simpl.
  destruct (Rlt_dec 0 (1 / (1 + 1e24 / 1e18))); simpl; [|lra].
  replace (1e24 / 1e18) with 1e6 by lra. lra.
Qed.

Lemma twins_wellFormed : wellFormed twins 0%nat twinA [1%nat].
Proof.
  repeat split; simpl; try lra.
  - intros H. apply list_elem_of_singleton in H. lia.
  - intros s Hs. apply list_elem_of_singleton in Hs as ->.
    exists twinB. split; [reflexivity|simpl; lra].
Qed.

Lemma twins_dominant :
  dominantFrom twins (mass twinA) (sortByA twins [1%nat]) (0, None)
  = (1, Some 1%nat).
Proof.
  simpl. unfold offset, a_of. simpl.
  replace (2 / (1 + 1 / 1)) with 1 by field.
  destruct (Rlt_dec 0 1); [reflexivity|lra].
Qed.

Lemma twins_reach :
  0.5 * radius twinA
  <= fst (dominantFrom twins (mass twinA) (sortByA twins [1%nat]) (0, None)).
Proof. rewrite twins_dominant. simpl. lra. Qed.

Lemma twinsAndPebble_wellFormed :
  wellFormed twinsAndPebble 0%nat twinA [1%nat; 2%nat].
Proof.
  repeat split; simpl; try lra.
  - intros H. apply elem_of_cons in H as [H|H]; [lia|].
    apply list_elem_of_singleton in H. lia.
  - intros s Hs. apply elem_of_cons in Hs as [->|Hs].
    + exists pebble. split; [reflexivity|simpl; lra].
    + apply list_elem_of_singleton in Hs as ->.
      exists twinB. split; [reflexivity|simpl; lra].
Qed.

Lemma twinsAndPebble_sorted :
  sortByA twinsAndPebble [1%nat; 2%nat] = [1%nat; 2%nat].
Proof.
  simpl. unfold keyA, a_of. simpl.
  destruct (Rlt_dec 2 (1 / 2)); [lra|reflexivity].
Qed.

Lemma twinsAndPebble_dominant :
  dominantFrom twinsAndPebble (mass twinA)
    (sortByA twinsAndPebble [1%nat; 2%nat]) (0, None)
  = (1, Some 2%nat).
Proof.
  rewrite twinsAndPebble_sorted.
  simpl. unfold offset, a_of. simpl.
  replace (2 / (1 + 1 / 1)) with 1 by field.
  replace (1 / 2 / (1 + 1 / (1 / 10))) with (1 / 22) by field.
  destruct (Rlt_dec 0 (1 / 22)); [simpl|lra].
  destruct (Rlt_dec (1 / 22) 1); [reflexivity|lra].
Qed.

Lemma twinB_threshold : threshold (mass twinA) twinB = 0.
Proof.
  unfold threshold, a_of. simpl.
  replace (1 / 1) with 1 by field. rewrite Pow_1. ring.
Qed.

(** The pair of equal bodies: a barycenter is inserted as cell 2. *)
Lemma twins_run :
  exists h',
    NewSystem 0%nat (Some [1%nat]) twins = Ok 2%nat h'
    /\ h' !! 2%nat
       = Some (mkOrbitable (NewOrbit 0 0 0 0 0) "A-B Barycenter" None
                 (Some [0%nat; 1%nat]) 1 (1 + 1) (-1) Barycenter)
    /\ h' !! 0%nat
       = Some (mkOrbitable (NewOrbit 1 0 0 (0 + PI) 1) "A" None (Some [])
                 1 1 0 (Body Planet))
    /\ h' !! 1%nat
       = Some (mkOrbitable (NewOrbit (2 - 1) 0 0 0 1) "B" (Some 2%nat) None
                 1 1 (2 * Pow (1 / 1) 0.4) (Body Planet)).
Proof.
  pose proof twins_wellFormed as Hwf.
  pose proof (wellFormed_valid _ _ _ _ Hwf) as Hval.
  destruct Hwf as (Hc & Hsat & _ & _ & Hnin & _).
  assert (Hge : ~ 1 < 0.5 * radius twinA) by (simpl; lra).
  assert (Hin : 1%nat ∈ [1%nat]) by left.
  destruct (NewSystem_barycenter twins 0%nat 1%nat [1%nat] twinA twinB 1
              Hc Hsat Hval Hnin twins_dominant Hin eq_refl Hge)
    as (h' & Heq & _ & Hbc & Hc' & Hd & _).
  assert (Hk : ~ keyA twins 1%nat < 0) by (unfold keyA, a_of; simpl; lra).
  rewrite twinB_threshold in Hbc, Hc', Hd.
  unfold outerOf, innerOf, side in *. simpl sortByA in *.
  rewrite filter_cons_True, filter_nil in Hbc by exact Hk.
  rewrite filter_cons_False, filter_nil in Hc' by tauto.
  rewrite decide_False in Hd by exact Hk.
  exists h'. split; [exact Heq|]. split; [exact Hbc|].
  split; [exact Hc'|exact Hd].
Qed.

(** The pair with a light body in between: the barycenter is cell 3. *)
Lemma twinsAndPebble_run :
  exists h' bcn,
    NewSystem 0%nat (Some [1%nat; 2%nat]) twinsAndPebble = Ok 3%nat h'
    /\ h' !! 3%nat = Some bcn
    /\ satellites bcn = Some [0%nat; 1%nat; 2%nat]
    /\ keyA h' 0%nat = 1 /\ keyA h' 1%nat = 1 / 2 /\ keyA h' 2%nat = 2 - 1.
Proof.
  pose proof twinsAndPebble_wellFormed as Hwf.
  pose proof (wellFormed_valid _ _ _ _ Hwf) as Hval.
  destruct Hwf as (Hc & Hsat & _ & _ & Hnin & _).
  assert (Hge : ~ 1 < 0.5 * radius twinA) by (simpl; lra).
  assert (Hin : 2%nat ∈ [1%nat; 2%nat]) by (right; left).
  destruct (NewSystem_barycenter twinsAndPebble 0%nat 2%nat [1%nat; 2%nat]
              twinA twinB 1 Hc Hsat Hval Hnin
              twinsAndPebble_dominant Hin eq_refl Hge)
    as (h' & Heq & _ & Hbc & Hc' & Hd & Hs & _).
  assert (Hk1 : ~ keyA twinsAndPebble 1%nat < 0)
    by (unfold keyA, a_of; simpl; lra).
  assert (Hk2 : ~ keyA twinsAndPebble 2%nat < 0)
    by (unfold keyA, a_of; simpl; lra).
  rewrite twinB_threshold, twinsAndPebble_sorted in *.
  unfold outerOf in Hbc.
  rewrite filter_cons_True, filter_cons_True, filter_nil in Hbc
    by assumption.
  eexists h', _. split; [exact Heq|]. split; [exact Hbc|].
  split; [reflexivity|].
  rewrite (keyA_lookup _ _ _ Hc'), (keyA_lookup _ _ _ Hd).
  rewrite (keyA_lookup _ _ _
             (Hs 1%nat pebble ltac:(left) ltac:(lia) eq_refl)).
  repeat split.
Qed.

(** * Where [NewSystem] loses the dominant satellite *)

(** Without a dominant satellite the second loop, if it runs at all, stops
    at its first round on the nil [baryBody]. *)
Lemma split_nil_panics (bc s : ref) (l : list ref) (st : list ref * list ref)
    (h : heap) :
  is_Some (h !! s) ->
  foldM (splitBody bc None) (s :: l) st h = Panic nilDeref.
Proof.
  intros [o Ho]. simpl foldM. unfold splitBody.
  rewrite bind_eq, bind_eq, (load_eq _ _ _ Ho). reflexivity.
Qed.

(** No satellite has a positive offset and the central radius is not
    positive: the barycenter branch is taken with a nil [baryBody]. *)
Lemma NewSystem_nil_dominant (h : heap) (c : ref) (sats : slice)
    (cb : orbitable) :
  h !! c = Some cb -> satellites cb = None ->
  (forall s, s ∈ elems sats -> is_Some (h !! s)) ->
  snd (dominantFrom h (mass cb) (sortByA h (elems sats)) (0, None)) = None ->
  radius cb <= 0 ->
  NewSystem c sats h = Panic nilDeref.
Proof.
  intros Hc Hsat Hval Hnone Hrad.
  set (l := sortByA h (elems sats)) in *.
  assert (Hdom : dominantFrom h (mass cb) l (0, None) = (0, None)).
  { destruct (dominantFrom_inv h (mass cb) l (0, None))
      as [Heq|(d & o & Hd & _)]; [exact Heq|congruence]. }
  assert (Hvall : forall s, s ∈ l -> is_Some (h !! s)).
  { intros s Hs. apply Hval. now apply elem_of_sortByA in Hs. }
  destruct (wp_elim _ _ _
              (scan_wp c (mass cb) l (0, None) h
                 (ex_intro _ cb (conj Hc eq_refl)) Hvall))
    as (st & h1 & Hscan & Hst & Hlen & Hlk).
  rewrite Hdom in Hst. subst st.
  assert (Hc1 : exists cb1, h1 !! c = Some cb1 /\ radius cb1 = radius cb).
  { rewrite Hlk, Hc. destruct (decide (c ∈ l)); eexists; split; reflexivity. }
  destruct Hc1 as (cb1 & Hc1 & Hr1).
  unfold NewSystem.
  rewrite bind_eq, (load_eq _ _ _ Hc), Hsat.
  rewrite bind_eq. unfold sortSlice at 1. rewrite elems_sorted. fold l.
  rewrite bind_eq, Hscan. cbn [fst snd].
  rewrite bind_eq, (load_eq _ _ _ Hc1), Hr1.
  destruct (Rlt_dec 0 (0.5 * radius cb)) as [Hlt|_]; [lra|].
  rewrite bind_eq. unfold alloc at 1.
  destruct l as [|s l'] eqn:El.
  - simpl foldM. rewrite bind_eq. unfold mret, M_ret, ret at 1. cbn [fst snd].
    assert (Hbc : (h1 ++ [zeroOrbitable Barycenter]) !! length h1
                  = Some (zeroOrbitable Barycenter))
      by (apply list_lookup_middle; reflexivity).
    assert (Hcl : (c < length h1)%nat) by (eapply lookup_lt_Some, Hc1).
    assert (Hc2 : (h1 ++ [zeroOrbitable Barycenter]) !! c = Some cb1)
      by (rewrite lookup_app_l by exact Hcl; exact Hc1).
    rewrite bind_eq, (modify_eq _ _ _ _ Hbc).
    set (h3 := <[length h1 := _]> _).
    assert (Hc3 : h3 !! c = Some cb1).
    { unfold h3. rewrite list_lookup_insert_ne by lia. exact Hc2. }
    assert (Hbc3 : h3 !! length h1
                   = Some (set_satellites (Some [c]) (zeroOrbitable Barycenter))).
    { unfold h3. apply (lookup_insert_same _ _ _ _ Hbc). }
    rewrite bind_eq, (load_eq _ _ _ Hc3).
    rewrite bind_eq, (modify_eq _ _ _ _ Hbc3).
    set (h4 := <[length h1 := _]> h3).
    assert (Hc4 : h4 !! c = Some cb1).
    { unfold h4. rewrite list_lookup_insert_ne by lia. exact Hc3. }
    rewrite bind_eq, (load_eq _ _ _ Hc4).
    reflexivity.
  - rewrite bind_eq, split_nil_panics; [reflexivity|].
    apply lookup_lt_is_Some. rewrite length_app.
    assert (Hs : is_Some (h !! s)) by (apply Hvall; left).
    apply lookup_lt_is_Some in Hs. rewrite Hlen. lia.
Qed.

Lemma pointAndStill_built :
  (x ← NewBody Star "A" 0 1 (NewOrbit 0 0 0 0 0);
   y ← NewBody Moon "B" 1 1 (NewOrbit 0 0 0 0 1);
   mret (x, y)) [] = Ok (0%nat, 1%nat) pointAndStill.
Proof. reflexivity. Qed.

Lemma pointAndBack_built :
  (x ← NewBody Star "A" 0 1 (NewOrbit 0 0 0 0 0);
   y ← NewBody Moon "B" 1 1 (NewOrbit (-2) 0 0 0 1);
   mret (x, y)) [] = Ok (0%nat, 1%nat) pointAndBack.
Proof. reflexivity. Qed.

(** C3: a central body of radius [0] and mass [1] with the single satellite
    of mass [1] at [a = -2].  The offset of the satellite, the maximum over
    the satellites, is [-1], strictly below half the central radius; yet the
    central body is not returned as root.  The running maximum of the first
    loop starts at [0] with no dominant satellite and is only replaced by a
    greater offset, so it stays [0], the test [0 < 0.5 * radius] fails, and
    the barycenter branch stops on the nil [baryBody]. *)
Theorem NewSystem_root_nil_dominant :
  pointAndBack !! 0%nat = Some pointStar
  /\ satellites pointStar = None
  /\ (forall s o, s ∈ [1%nat] -> pointAndBack !! s = Some o ->
        a_of o / (1 + mass pointStar / mass o) = -1
        /\ a_of o / (1 + mass pointStar / mass o) < 0.5 * radius pointStar)
  /\ dominantFrom pointAndBack (mass pointStar)
       (sortByA pointAndBack [1%nat]) (0, None) = (0, None)
  /\ NewSystem 0%nat (Some [1%nat]) pointAndBack = Panic nilDeref.
Proof.
  assert (Hdom : dominantFrom pointAndBack (mass pointStar)
                   (sortByA pointAndBack [1%nat]) (0, None) = (0, None)).
  { simpl. unfold offset, a_of. simpl.
    destruct (Rlt_dec 0 (-2 / (1 + 1 / 1))) as [Hlt|_]; [|reflexivity].
    exfalso. replace (-2 / (1 + 1 / 1)) with (-1) in Hlt by field. lra. }
  split; [reflexivity|]. split; [reflexivity|]. split; [|split].
  - intros s o Hs Ho. apply list_elem_of_singleton in Hs. subst s.
    inversion Ho; subst o. unfold a_of. simpl.
    replace (-2 / (1 + 1 / 1)) with (-1) by field. split; [reflexivity|lra].
  - exact Hdom.
  - apply (NewSystem_nil_dominant pointAndBack 0%nat (Some [1%nat]) pointStar
             eq_refl eq_refl).
    + intros s Hs. apply list_elem_of_singleton in Hs. subst s. now eexists.
    + simpl elems. now rewrite Hdom.
    + simpl. lra.
Qed.

(** C2: a central body of radius [0] and mass [1] with the single satellite
    of mass [1] at [a = 0].  The offset of the satellite, the maximum over
    the satellites, is [0] and reaches half the central radius; yet no
    barycenter is returned.  The offset is not greater than the [0] the
    running maximum starts with, so no dominant satellite is recorded, and
    the second loop stops on the nil [baryBody]. *)
Theorem NewSystem_barycenter_nil_dominant :
  pointAndStill !! 0%nat = Some pointStar
  /\ satellites pointStar = None
  /\ (forall s o, s ∈ [1%nat] -> pointAndStill !! s = Some o ->
        a_of o / (1 + mass pointStar / mass o) = 0
        /\ 0.5 * radius pointStar <= a_of o / (1 + mass pointStar / mass o))
  /\ dominantFrom pointAndStill (mass pointStar)
       (sortByA pointAndStill [1%nat]) (0, None) = (0, None)
  /\ NewSystem 0%nat (Some [1%nat]) pointAndStill = Panic nilDeref.
Proof.
  assert (Hdom : dominantFrom pointAndStill (mass pointStar)
                   (sortByA pointAndStill [1%nat]) (0, None) = (0, None)).
  { simpl. unfold offset, a_of. simpl.
    destruct (Rlt_dec 0 (0 / (1 + 1 / 1))) as [Hlt|_]; [|reflexivity].
    exfalso. replace (0 / (1 + 1 / 1)) with 0 in Hlt by field. lra. }
  split; [reflexivity|]. split; [reflexivity|]. split; [|split].
  - intros s o Hs Ho. apply list_elem_of_singleton in Hs. subst s.
    inversion Ho; subst o. unfold a_of. simpl.
    replace (0 / (1 + 1 / 1)) with 0 by field. split; [reflexivity|lra].
  - exact Hdom.
  - apply (NewSystem_nil_dominant pointAndStill 0%nat (Some [1%nat]) pointStar
             eq_refl eq_refl).
    + intros s Hs. apply list_elem_of_singleton in Hs. subst s. now eexists.
    + simpl elems. now rewrite Hdom.
    + simpl. lra.
Qed.

(** * What [NewSystem] guarantees *)

(** X23: on a well-formed call, [NewSystem] computes for each satellite the
    barycenter offset [a / (1 + mass_central / mass_satellite)] and keeps
    their maximum [maxR] (counted from zero), and it sets every satellite's
    [soi] to [a (mass_satellite / mass_central)^0.4]; when the maximum is
    strictly below half the central radius, that is when every offset is,
    the central body is returned as root with [soi = -1], its satellites are
    the sorted input slice, and every satellite has the central body as
    parent. *)
Theorem NewSystem_central_root (h : heap) (c : ref) (cb : orbitable)
    (l0 : list ref) :
  wellFormed h c cb l0 ->
  let l := sortByA h l0 in
  let maxR := fst (dominantFrom h (mass cb) l (0, None)) in
  (forall s o, s ∈ l0 -> h !! s = Some o ->
     a_of o / (1 + mass cb / mass o) <= maxR)
  /\ (maxR = 0
      \/ exists s o, s ∈ l0 /\ h !! s = Some o
           /\ maxR = a_of o / (1 + mass cb / mass o))
  /\ (maxR < 0.5 * radius cb
      <-> forall s o, s ∈ l0 -> h !! s = Some o ->
            a_of o / (1 + mass cb / mass o) < 0.5 * radius cb)
  /\ (exists root h',
        NewSystem c (Some l0) h = Ok root h'
        /\ forall s o, s ∈ l0 -> h !! s = Some o ->
             exists o', h' !! s = Some o'
               /\ soi o' = a_of o * Pow (mass o / mass cb) 0.4)
  /\ (maxR < 0.5 * radius cb ->
      exists h' cb',
        NewSystem c (Some l0) h = Ok c h'
        /\ h' !! c = Some cb' /\ soi cb' = -1 /\ satellites cb' = Some l
        /\ l ≡ₚ l0 /\ sortedBy (keyA h') l
        /\ forall s o, s ∈ l0 -> h !! s = Some o ->
             exists o', h' !! s = Some o' /\ parent o' = Some c).
Proof.
  intros Hwf l maxR.
  pose proof (wellFormed_valid _ _ _ _ Hwf) as Hval.
  pose proof (wellFormed_cases _ _ _ _ Hwf) as Hcases.
  destruct Hwf as (Hc & Hsat & Hrad & _ & Hnin & _).
  assert (Hl : forall s, s ∈ l <-> s ∈ l0) by (intros s; apply elem_of_sortByA).
  assert (Hvall : forall s, s ∈ l -> is_Some (h !! s))
    by (intros s Hs; apply Hval, Hl, Hs).
  destruct (dominantFrom_upper h (mass cb) l (0, None)) as [_ Hup].
  pose proof (dominantFrom_inv h (mass cb) l (0, None)) as Hinv.
  fold maxR in Hup.
  assert (Hbound : forall s o, s ∈ l0 -> h !! s = Some o ->
                     a_of o / (1 + mass cb / mass o) <= maxR).
  { intros s o Hs Ho. apply (Hup Hvall s o); [now apply Hl|assumption]. }
  split; [exact Hbound|]. split; [|split; [|split]].
  - destruct Hinv as [Heq|(d & o & _ & Hin & Ho & Hf & _)].
    + left. unfold maxR. now rewrite Heq.
    + right. exists d, o. split; [now apply Hl|]. split; [assumption|exact Hf].
  - split.
    + intros Hlt s o Hs Ho.
      apply Rle_lt_trans with maxR; [exact (Hbound s o Hs Ho)|exact Hlt].
    + intros Hall.
      destruct Hinv as [Heq|(d & o & _ & Hin & Ho & Hf & _)].
      * unfold maxR. rewrite Heq. simpl. lra.
      * unfold maxR. rewrite Hf. apply (Hall d o); [now apply Hl|assumption].
  - destruct Hcases as [Hlt|(d & db & Hdom & Hin & Hd & _ & _ & Hnlt)].
    + destruct (NewSystem_root h c (Some l0) cb Hc Hsat Hval Hnin Hlt)
        as (h' & Heq & _ & _ & Hs' & _).
      exists c, h'. split; [exact Heq|].
      intros s o Hs Ho. exists (touch c (mass cb) o).
      split; [now apply Hs'|reflexivity].
    + destruct (NewSystem_barycenter h c d l0 cb db _
                  Hc Hsat Hval Hnin Hdom Hin Hd Hnlt)
        as (h' & Heq & _ & _ & _ & Hd' & Hs' & _).
      exists (length h), h'. split; [exact Heq|].
      intros s o Hs Hso.
      destruct (decide (s = d)) as [->|Hne].
      * rewrite Hd in Hso. inversion Hso; subst.
        eexists. split; [exact Hd'|reflexivity].
      * eexists. split; [apply (Hs' s o Hs Hne Hso)|reflexivity].
  - intros Hlt.
    destruct (NewSystem_root h c (Some l0) cb Hc Hsat Hval Hnin Hlt)
      as (h' & Heq & Hlen & Hc' & Hs' & Hr').
    exists h', (set_satellites (Some l) (set_soi (-1) cb)).
    split; [exact Heq|]. split; [exact Hc'|].
    split; [reflexivity|]. split; [reflexivity|].
    split; [apply sortByA_perm|]. split.
    + apply (sortedBy_ext (keyA h)); [|apply sortByA_sorted].
      intros s Hs. apply Hl in Hs. destruct (Hval s Hs) as [o Ho].
      now rewrite (keyA_lookup _ _ _ Ho), (keyA_lookup _ _ _ (Hs' s o Hs Ho)).
    + intros s o Hs Ho. exists (touch c (mass cb) o).
      split; [now apply Hs'|reflexivity].
Qed.

Lemma NewSystem_central_root_witness :
  exists h', NewSystem 0%nat (Some [1%nat]) planetMoon = Ok 0%nat h'.
Proof.
  destruct (NewSystem_central_root planetMoon 0%nat heavyPlanet [1%nat]
              planetMoon_wellFormed)
    as (_ & _ & _ & _ & Hroot).
  destruct (Hroot planetMoon_max) as (h' & cb' & Heq & _).
  exists h'. exact Heq.
Defined.

(** X24: on a well-formed call, when the maximum offset [maxR] reaches half
    the central radius, [NewSystem] returns a new [Barycenter] whose
    satellites are the central body followed by the satellites with
    [a >= dominant.a - dominant.soi], the others staying with the central
    body; the barycenter takes the central body's orbit, radius [maxR], the
    sum of the two masses and [soi = -1]; the central body gets
    [soi = dominant.a - dominant.soi] and the dominant satellite's orbit with
    [a = maxR] and [m0] advanced by [PI]; the dominant satellite's [a] is
    reduced by [maxR]. *)
Theorem NewSystem_inserts_barycenter (h : heap) (c : ref) (cb : orbitable)
    (l0 : list ref) :
  wellFormed h c cb l0 ->
  let l := sortByA h l0 in
  let maxR := fst (dominantFrom h (mass cb) l (0, None)) in
  0.5 * radius cb <= maxR ->
  exists d db h' bcn cb' db',
    d ∈ l0 /\ h !! d = Some db
    /\ maxR = a_of db / (1 + mass cb / mass db)
    /\ (forall s o, s ∈ l0 -> h !! s = Some o ->
          a_of o / (1 + mass cb / mass o) <= maxR)
    /\ NewSystem c (Some l0) h = Ok (length h) h'
    /\ h' !! length h = Some bcn /\ h' !! c = Some cb' /\ h' !! d = Some db'
    /\ kind bcn = Barycenter
    /\ let dsoi := a_of db * Pow (mass db / mass cb) 0.4 in
       satellites cb' = Some (filter (fun s => keyA h s < a_of db - dsoi) l)
       /\ satellites bcn
          = Some (c :: filter (fun s => ~ keyA h s < a_of db - dsoi) l)
       /\ orb bcn = orb cb
       /\ radius bcn = maxR
       /\ mass bcn = mass cb + mass db
       /\ soi bcn = -1
       /\ soi cb' = a_of db - dsoi
       /\ orb cb' = NewOrbit maxR (e (orb db)) (pomega (orb db))
                      (m0 (orb db) + PI) (n (orb db))
       /\ a_of db' = a_of db - maxR.
Proof.
  intros Hwf l maxR Hge.
  pose proof (wellFormed_valid _ _ _ _ Hwf) as Hval.
  destruct (wellFormed_cases _ _ _ _ Hwf)
    as [Hlt|(d & db & Hdom & Hin & Hd & HmaxR & _ & Hnlt)].
  { fold l maxR in Hlt. lra. }
  destruct Hwf as (Hc & Hsat & _ & _ & Hnin & _).
  destruct (NewSystem_barycenter h c d l0 cb db _
              Hc Hsat Hval Hnin Hdom Hin Hd Hnlt)
    as (h' & Heq & _ & Hbc' & Hc' & Hd' & _ & _).
  destruct (dominantFrom_upper h (mass cb) l (0, None)) as [_ Hup].
  eexists d, db, h', _, _, _.
  split; [exact Hin|]. split; [exact Hd|]. split; [exact HmaxR|].
  split.
  { intros s o Hs Ho.
    apply (Hup (fun x Hx => Hval x (proj1 (elem_of_sortByA h x l0) Hx)) s o);
      [now apply elem_of_sortByA|assumption]. }
  split; [exact Heq|]. split; [exact Hbc'|]. split; [exact Hc'|].
  split; [exact Hd'|].
  repeat split.
Qed.

Lemma NewSystem_inserts_barycenter_witness :
  exists h' bcn,
    NewSystem 0%nat (Some [1%nat]) twins = Ok 2%nat h'
    /\ h' !! 2%nat = Some bcn /\ kind bcn = Barycenter.
Proof.
  destruct (NewSystem_inserts_barycenter twins 0%nat twinA [1%nat]
              twins_wellFormed twins_reach)
    as (d & db & h' & bcn & cb' & db' & _ & _ & _ & _ & Heq & Hbc & _ & _
        & Hk & _).
  exists h', bcn. split; [exact Heq|]. split; [exact Hbc|exact Hk].
Defined.

(** C10: on a well-formed call, [NewSystem] leaves the orbital elements
    [e], [pomega], [m0], [n] of every input satellite unchanged, and its [a]
    too unless a barycenter is inserted and the satellite is the dominant
    one; of the other fields of a satellite it writes only [parent] and
    [soi]. *)
Theorem NewSystem_frame (h : heap) (c : ref) (cb : orbitable) (l0 : list ref) :
  wellFormed h c cb l0 ->
  exists root h',
    NewSystem c (Some l0) h = Ok root h'
    /\ forall s o, s ∈ l0 -> h !! s = Some o ->
         exists o', h' !! s = Some o'
           /\ e (orb o') = e (orb o) /\ pomega (orb o') = pomega (orb o)
           /\ m0 (orb o') = m0 (orb o) /\ n (orb o') = n (orb o)
           /\ name o' = name o /\ satellites o' = satellites o
           /\ radius o' = radius o /\ mass o' = mass o /\ kind o' = kind o
           /\ (root = c
               \/ snd (dominantFrom h (mass cb) (sortByA h l0) (0, None))
                  <> Some s ->
               a (orb o') = a (orb o)).
Proof.
  intros Hwf.
  pose proof (wellFormed_valid _ _ _ _ Hwf) as Hval.
  pose proof (wellFormed_cases _ _ _ _ Hwf) as Hcases.
  destruct Hwf as (Hc & Hsat & _ & _ & Hnin & _).
  destruct Hcases as [Hlt|(d & db & Hdom & Hin & Hd & _ & _ & Hnlt)].
  - destruct (NewSystem_root h c (Some l0) cb Hc Hsat Hval Hnin Hlt)
      as (h' & Heq & _ & _ & Hs' & _).
    exists c, h'. split; [exact Heq|].
    intros s o Hs Ho. exists (touch c (mass cb) o).
    split; [now apply Hs'|]. repeat split.
  - destruct (NewSystem_barycenter h c d l0 cb db _
                Hc Hsat Hval Hnin Hdom Hin Hd Hnlt)
      as (h' & Heq & _ & _ & _ & Hd' & Hs' & _).
    exists (length h), h'. split; [exact Heq|].
    intros s o Hs Ho.
    destruct (decide (s = d)) as [->|Hne].
    + rewrite Hd in Ho. inversion Ho; subst o.
      eexists. split; [exact Hd'|]. repeat split.
      intros [Hroot|Hnd]; simpl.
      * apply lookup_lt_Some in Hc. lia.
      * rewrite Hdom in Hnd. simpl in Hnd. congruence.
    + eexists. split; [apply (Hs' s o Hs Hne Ho)|]. repeat split.
Qed.

Lemma NewSystem_frame_witness :
  exists root h', NewSystem 0%nat (Some [1%nat]) twins = Ok root h'.
Proof.
  destruct (NewSystem_frame twins 0%nat twinA [1%nat] twins_wellFormed)
    as (root & h' & Heq & _).
  exists root, h'. exact Heq.
Defined.

(** C9, as stated, fails: for the bodies named ["A"] and ["B"] the
    barycenter is named ["A-B Barycenter"], without spaces around the
    hyphen, not ["A - B Barycenter"]. *)
Lemma NewSystem_name_no_spaces :
  exists h' bcn,
    NewSystem 0%nat (Some [1%nat]) twins = Ok 2%nat h'
    /\ h' !! 2%nat = Some bcn
    /\ name bcn = "A-B Barycenter"
    /\ name bcn <> name twinA +:+ " - " +:+ name twinB +:+ " Barycenter".
Proof.
  destruct twins_run as (h' & Heq & Hbc & _).
  eexists h', _. split; [exact Heq|]. split; [exact Hbc|].
  split; [reflexivity|]. simpl. discriminate.
Qed.

(** C9, amended: on a well-formed call that inserts a barycenter, the
    barycenter is named after the central body and the dominant satellite,
    joined by a single hyphen without spaces and followed by
    [" Barycenter"]. *)
Theorem NewSystem_barycenter_name (h : heap) (c : ref) (cb : orbitable)
    (l0 : list ref) :
  wellFormed h c cb l0 ->
  0.5 * radius cb
    <= fst (dominantFrom h (mass cb) (sortByA h l0) (0, None)) ->
  exists d db h' bcn,
    snd (dominantFrom h (mass cb) (sortByA h l0) (0, None)) = Some d
    /\ h !! d = Some db
    /\ NewSystem c (Some l0) h = Ok (length h) h'
    /\ h' !! length h = Some bcn
    /\ name bcn = name cb +:+ "-" +:+ name db +:+ " Barycenter".
Proof.
  intros Hwf Hge.
  pose proof (wellFormed_valid _ _ _ _ Hwf) as Hval.
  destruct (wellFormed_cases _ _ _ _ Hwf)
    as [Hlt|(d & db & Hdom & Hin & Hd & _ & _ & Hnlt)]; [lra|].
  destruct Hwf as (Hc & Hsat & _ & _ & Hnin & _).
  destruct (NewSystem_barycenter h c d l0 cb db _
              Hc Hsat Hval Hnin Hdom Hin Hd Hnlt)
    as (h' & Heq & _ & Hbc' & _).
  eexists d, db, h', _.
  split; [now rewrite Hdom|]. split; [exact Hd|].
  split; [exact Heq|]. split; [exact Hbc'|]. reflexivity.
Qed.

Lemma NewSystem_barycenter_name_witness :
  exists h' bcn,
    NewSystem 0%nat (Some [1%nat]) twins = Ok 2%nat h'
    /\ h' !! 2%nat = Some bcn
    /\ name bcn = "A" +:+ "-" +:+ "B" +:+ " Barycenter".
Proof.
  destruct (NewSystem_barycenter_name twins 0%nat twinA [1%nat]
              twins_wellFormed twins_reach)
    as (d & db & h' & bcn & Hdom & Hd & Heq & Hbc & Hname).
  exists h', bcn. split; [exact Heq|]. split; [exact Hbc|].
  rewrite twins_dominant in Hdom. simpl in Hdom.
  inversion Hdom; subst d. inversion Hd; subst db. exact Hname.
Defined.

(** C8 at the pair of equal bodies: the central body is the first satellite
    of the barycenter, yet its parent link is still nil, while the other
    satellite is linked to the barycenter. *)
Theorem NewSystem_central_parent_unset :
  exists h' bcn cb' sb',
    NewSystem 0%nat (Some [1%nat]) twins = Ok 2%nat h'
    /\ h' !! 2%nat = Some bcn
    /\ satellites bcn = Some [0%nat; 1%nat]
    /\ h' !! 0%nat = Some cb' /\ parent cb' = None
    /\ h' !! 1%nat = Some sb' /\ parent sb' = Some 2%nat.
Proof.
  destruct twins_run as (h' & Heq & Hbc & Hc & Hd).
  eexists h', _, _, _. split; [exact Heq|]. split; [exact Hbc|].
  split; [reflexivity|]. split; [exact Hc|]. split; [reflexivity|].
  split; [exact Hd|reflexivity].
Qed.

(** C6, as stated, fails: called with an empty slice on a body of radius
    one, [NewSystem] returns the body and does not panic. *)
Lemma NewSystem_empty_returns :
  exists h',
    NewSystem 0%nat (Some []) [twinA] = Ok 0%nat h'
    /\ forall msg, NewSystem 0%nat (Some []) [twinA] <> Panic msg.
Proof.
  destruct (NewSystem_root [twinA] 0%nat (Some []) twinA eq_refl eq_refl)
    as (h' & Heq & _).
  - intros s Hs. now apply not_elem_of_nil in Hs.
  - apply not_elem_of_nil.
  - simpl. lra.
  - exists h'. split; [exact Heq|]. intros msg. rewrite Heq. discriminate.
Qed.

(** C6, amended: [NewSystem] panics whenever the central body's
    [satellites] field is already set, and a well-formed call leaves it set,
    so that a second call on the same body panics; but called without any
    satellite on a central body of positive radius it does not fail: it
    returns the central body as root with [soi = -1]. *)
Theorem NewSystem_preconditions (h : heap) (c : ref) (cb : orbitable) :
  h !! c = Some cb ->
  (forall l sats, satellites cb = Some l ->
     NewSystem c sats h = Panic "Satellites already set")
  /\ (forall l0, wellFormed h c cb l0 ->
        exists root h',
          NewSystem c (Some l0) h = Ok root h'
          /\ forall sats,
               NewSystem c sats h' = Panic "Satellites already set")
  /\ (forall sats, satellites cb = None -> elems sats = [] ->
        0 < radius cb ->
        exists h' cb',
          NewSystem c sats h = Ok c h'
          /\ h' !! c = Some cb' /\ soi cb' = -1 /\ satellites cb' = sats).
Proof.
  intros Hc. split; [|split].
  - intros l sats Hsat. apply (NewSystem_already_set h c sats cb l Hc Hsat).
  - intros l0 Hwf.
    pose proof (wellFormed_valid _ _ _ _ Hwf) as Hval.
    pose proof (wellFormed_cases _ _ _ _ Hwf) as Hcases.
    destruct Hwf as (_ & Hsat & _ & _ & Hnin & _).
    destruct Hcases as [Hlt|(d & db & Hdom & Hin & Hd & _ & _ & Hnlt)].
    + destruct (NewSystem_root h c (Some l0) cb Hc Hsat Hval Hnin Hlt)
        as (h' & Heq & _ & Hc' & _).
      exists c, h'. split; [exact Heq|]. intros sats.
      eapply NewSystem_already_set; [exact Hc'|reflexivity].
    + destruct (NewSystem_barycenter h c d l0 cb db _
                  Hc Hsat Hval Hnin Hdom Hin Hd Hnlt)
        as (h' & Heq & _ & _ & Hc' & _).
      exists (length h), h'. split; [exact Heq|]. intros sats.
      eapply NewSystem_already_set; [exact Hc'|reflexivity].
  - intros sats Hsat Hnil Hrad.
    destruct (NewSystem_root h c sats cb Hc Hsat) as (h' & Heq & _ & Hc' & _).
    + rewrite Hnil. intros s Hs. now apply not_elem_of_nil in Hs.
    + rewrite Hnil. apply not_elem_of_nil.
    + rewrite Hnil. simpl. lra.
    + exists h', (set_satellites (option_map (sortByA h) sats) (set_soi (-1) cb)).
      split; [exact Heq|]. split; [exact Hc'|]. split; [reflexivity|].
      destruct sats as [l|]; [|reflexivity].
      simpl in Hnil. subst l. reflexivity.
Qed.

Lemma NewSystem_preconditions_witness :
  exists root h',
    NewSystem 0%nat (Some [1%nat]) twins = Ok root h'
    /\ NewSystem 0%nat (Some [1%nat]) h' = Panic "Satellites already set".
Proof.
  destruct (NewSystem_preconditions twins 0%nat twinA eq_refl)
    as (_ & Htwice & _).
  destruct (Htwice [1%nat] twins_wellFormed) as (root & h' & Heq & Hpanic).
  exists root, h'. split; [exact Heq|apply Hpanic].
Defined.

(** C7, as stated, fails: with the light body in between, the barycenter's
    satellites are cells 0, 1, 2 in this order, whose final [a] are
    [1], [1/2], [1]. *)
Lemma NewSystem_barycenter_unsorted :
  exists h' bcn,
    NewSystem 0%nat (Some [1%nat; 2%nat]) twinsAndPebble = Ok 3%nat h'
    /\ h' !! 3%nat = Some bcn
    /\ satellites bcn = Some [0%nat; 1%nat; 2%nat]
    /\ ~ sortedBy (keyA h') [0%nat; 1%nat; 2%nat].
Proof.
  destruct twinsAndPebble_run as (h' & bcn & Heq & Hbc & Hsat & H0 & H1 & H2).
  exists h', bcn. split; [exact Heq|]. split; [exact Hbc|].
  split; [exact Hsat|].
  unfold sortedBy. simpl. rewrite H0, H1, H2. intros HS.
  inversion HS as [|? ? _ Hhd]; subst.
  inversion Hhd; subst. lra.
Qed.

(** C7, amended: on a well-formed call, the slices [NewSystem] stores are in
    ascending order of the [a] the satellites had before the call.  Without
    a barycenter this is the order of the final [a] as well; with one, the
    central body keeps the inner satellites in ascending order of their
    final [a], and the barycenter gets the central body followed by the
    outer satellites in ascending order of their [a] before the call. *)
Theorem NewSystem_sorted (h : heap) (c : ref) (cb : orbitable) (l0 : list ref) :
  wellFormed h c cb l0 ->
  exists root h' cb',
    NewSystem c (Some l0) h = Ok root h'
    /\ h' !! c = Some cb'
    /\ ((root = c
         /\ satellites cb' = Some (sortByA h l0)
         /\ sortedBy (keyA h') (sortByA h l0))
        \/ (root = length h
            /\ exists bcn inner outer,
                 h' !! root = Some bcn
                 /\ satellites cb' = Some inner
                 /\ satellites bcn = Some (c :: outer)
                 /\ sortedBy (keyA h') inner
                 /\ sortedBy (keyA h) outer)).
Proof.
  intros Hwf.
  pose proof (wellFormed_valid _ _ _ _ Hwf) as Hval.
  pose proof (wellFormed_cases _ _ _ _ Hwf) as Hcases.
  destruct Hwf as (Hc & Hsat & _ & _ & Hnin & _).
  destruct Hcases as [Hlt|(d & db & Hdom & Hin & Hd & HmaxR & Hpos & Hnlt)].
  - destruct (NewSystem_root h c (Some l0) cb Hc Hsat Hval Hnin Hlt)
      as (h' & Heq & _ & Hc' & Hs' & _).
    eexists c, h', _. split; [exact Heq|]. split; [exact Hc'|].
    left. split; [reflexivity|]. split; [reflexivity|].
    apply (sortedBy_ext (keyA h)); [|apply sortByA_sorted].
    intros s Hs. apply elem_of_sortByA in Hs. destruct (Hval s Hs) as [o Ho].
    now rewrite (keyA_lookup _ _ _ Ho), (keyA_lookup _ _ _ (Hs' s o Hs Ho)).
  - destruct (NewSystem_barycenter h c d l0 cb db _
                Hc Hsat Hval Hnin Hdom Hin Hd Hnlt)
      as (h' & Heq & _ & Hbc' & Hc' & _ & Hs' & _).
    eexists (length h), h', _. split; [exact Heq|]. split; [exact Hc'|].
    right. split; [reflexivity|].
    eexists _, _, _. split; [exact Hbc'|].
    split; [reflexivity|]. split; [reflexivity|]. split.
    + apply (sortedBy_ext (keyA h));
        [|apply sortedBy_filter, sortByA_sorted].
      intros s Hs. unfold innerOf in Hs.
      apply list_elem_of_filter in Hs as [Hlt Hs].
      apply elem_of_sortByA in Hs. destruct (Hval s Hs) as [o Ho].
      assert (Hne : s <> d).
      { intros ->. rewrite (keyA_lookup _ _ _ Hd) in Hlt.
        apply (dominant_not_inner (mass cb) db); [|exact Hlt].
        now rewrite <- HmaxR. }
      now rewrite (keyA_lookup _ _ _ Ho),
        (keyA_lookup _ _ _ (Hs' s o Hs Hne Ho)).
    + apply sortedBy_filter, sortByA_sorted.
Qed.

Lemma NewSystem_sorted_witness :
  exists root h',
    NewSystem 0%nat (Some [1%nat; 2%nat]) twinsAndPebble = Ok root h'.
Proof.
  destruct (NewSystem_sorted twinsAndPebble 0%nat twinA [1%nat; 2%nat]
              twinsAndPebble_wellFormed)
    as (root & h' & cb' & Heq & _).
  exists root, h'. exact Heq.
Defined.

(** * More on the propagators *)

Section Kepler.

(** Twice the angle of a point, without the quadrant analysis. *)
Lemma Atan2_double (y x : R) :
  (x * x + y * y) * cos (2 * Atan2 y x) = x * x - y * y
  /\ (x * x + y * y) * sin (2 * Atan2 y x) = 2 * (x * y).
Proof.
  unfold Atan2.
  destruct (Req_dec_T y 0) as [Hy|Hy].
  - subst y. destruct (Rle_dec 0 x).
    + replace (2 * 0) with 0 by ring. rewrite cos_0, sin_0. split; ring.
    + rewrite cos_2PI, sin_2PI. split; ring.
  - destruct (Req_dec_T x 0) as [Hx|Hx].
    + subst x. destruct (Rlt_dec 0 y).
      * replace (2 * (PI / 2)) with PI by field.
        rewrite cos_PI, sin_PI. split; ring.
      * replace (2 * - (PI / 2)) with (- PI) by field.
        rewrite cos_neg, sin_neg, cos_PI, sin_PI. split; ring.
    + set (t := y / x).
      assert (Hq : (x * x + y * y) * cos (2 * atan t) = x * x - y * y
                   /\ (x * x + y * y) * sin (2 * atan t) = 2 * (x * y)).
      { rewrite cos_2a, sin_2a, sin_atan, cos_atan.
        assert (Hs : 0 < 1 + t²) by (unfold Rsqr; nra).
        assert (Hss : sqrt (1 + t²) * sqrt (1 + t²) = 1 + t²)
          by (apply sqrt_sqrt; lra).
        assert (Hsp : 0 < sqrt (1 + t²)) by (apply sqrt_lt_R0; exact Hs).
        set (s := sqrt (1 + t²)) in *.
        assert (Hxy : x * x + y * y = x * x * (s * s)).
        { rewrite Hss. unfold Rsqr, t. field. exact Hx. }
        rewrite Hxy. unfold t. split; field; split; lra. }
      destruct (Rlt_dec x 0); [|exact Hq].
      destruct (Rle_dec (atan t) 0).
      * replace (2 * (atan t + PI)) with (2 * atan t + 2 * PI) by ring.
        now rewrite cos_shift_2PI, sin_shift_2PI.
      * replace (2 * (atan t - PI)) with (2 * atan t - 2 * PI) by ring.
        now rewrite cos_unshift_2PI, sin_unshift_2PI.
Qed.

(** The half-angle point of an eccentric anomaly: its squared length and
    the two quantities [Atan2_double] speaks of. *)
Lemma half_angle_squares (ecc E : R) :
  -1 <= ecc <= 1 ->
  let y := sqrt (1 - ecc) * cos (E / 2) in
  let x := sqrt (1 + ecc) * sin (E / 2) in
  x * x + y * y = 1 - ecc * cos E
  /\ x * x - y * y = ecc - cos E
  /\ 2 * (x * y) = sqrt (1 - ecc * ecc) * sin E.
Proof.
  intros He y x.
  assert (Hm : sqrt (1 - ecc) * sqrt (1 - ecc) = 1 - ecc)
    by (apply sqrt_sqrt; lra).
  assert (Hp : sqrt (1 + ecc) * sqrt (1 + ecc) = 1 + ecc)
    by (apply sqrt_sqrt; lra).
  assert (Hmp : sqrt (1 - ecc * ecc) = sqrt (1 + ecc) * sqrt (1 - ecc)).
  { rewrite <- sqrt_mult by lra. f_equal. ring. }
  assert (HcE : cos E = cos (E / 2) * cos (E / 2) - sin (E / 2) * sin (E / 2)).
  { rewrite <- cos_2a. f_equal. field. }
  assert (HsE : sin E = 2 * sin (E / 2) * cos (E / 2)).
  { rewrite <- sin_2a. f_equal. field. }
  pose proof (sin2_cos2 (E / 2)) as H1. unfold Rsqr in H1.
  unfold x, y. rewrite Hmp, HcE, HsE.
  set (c := cos (E / 2)) in *. set (s := sin (E / 2)) in *.
  set (p := sqrt (1 + ecc)) in *. set (m := sqrt (1 - ecc)) in *.
  repeat split.
  - replace (p * s * (p * s) + m * c * (m * c))
      with (p * p * (s * s) + m * m * (c * c)) by ring.
    rewrite Hp, Hm. nra.
  - replace (p * s * (p * s) - m * c * (m * c))
      with (p * p * (s * s) - m * m * (c * c)) by ring.
    rewrite Hp, Hm. nra.
  - ring.
Qed.

Lemma keplerE_shift_2PI (M ecc : R) (k : nat) :
  keplerE (M + 2 * PI) ecc k = keplerE M ecc k + 2 * PI.
Proof.
  induction k as [|k IH]; simpl; [reflexivity|].
  rewrite IH, sin_shift_2PI. ring.
Qed.

Lemma keplerE_0 (ecc : R) (k : nat) : keplerE 0 ecc k = 0.
Proof.
  induction k as [|k IH]; simpl; [reflexivity|].
  rewrite IH, sin_0. ring.
Qed.

Lemma keplerE_PI (ecc : R) (k : nat) : keplerE PI ecc k = PI.
Proof.
  induction k as [|k IH]; simpl; [reflexivity|].
  rewrite IH, sin_PI. ring.
Qed.

(** Turning the half-angle point by half a turn does not change twice its
    angle. *)
Lemma Atan2_double_opp (y x : R) :
  cos (2 * Atan2 (- y) (- x)) = cos (2 * Atan2 y x)
  /\ sin (2 * Atan2 (- y) (- x)) = sin (2 * Atan2 y x).
Proof.
  destruct (Req_dec_T (x * x + y * y) 0) as [Hz|Hnz].
  - assert (x = 0) by nra. assert (y = 0) by nra. subst.
    rewrite Ropp_0. split; reflexivity.
  - destruct (Atan2_double y x) as [Hc Hs].
    destruct (Atan2_double (- y) (- x)) as [Hc' Hs'].
    replace (- x * - x + - y * - y) with (x * x + y * y) in * by ring.
    replace (- x * - x - - y * - y) with (x * x - y * y) in * by ring.
    replace (2 * (- x * - y)) with (2 * (x * y)) in * by ring.
    split.
    + apply Rmult_eq_reg_l with (x * x + y * y); [congruence|exact Hnz].
    + apply Rmult_eq_reg_l with (x * x + y * y); [congruence|exact Hnz].
Qed.

End Kepler.

Section ClosedForms.

(** [PositionAt] without the angle: the point of eccentric anomaly [E] in
    the frame of the orbit, turned by [pomega]. *)
Lemma PositionAt_closed (o : orbit) (t : R) :
  0 < a o -> -1 <= e o <= 1 ->
  PositionAt o t
  = rotate (pomega o)
      (mkVector2D
         (a o * (e o - cos (keplerE (m0 o + (t - J2000) * n o) (e o) 10)))
         (a o * (sqrt (1 - e o * e o)
                 * sin (keplerE (m0 o + (t - J2000) * n o) (e o) 10)))).
Proof.
  intros Ha He. unfold PositionAt, rotate.
  destruct (Rle_dec (a o) 0) as [Hle|_]; [lra|].
  cbv zeta. rewrite !iter_keplerE.
  set (E := keplerE (m0 o + (t - J2000) * n o) (e o) 10).
  destruct (half_angle_squares (e o) E He) as (Hrho & Hd & Hp).
  cbv zeta in Hrho, Hd, Hp.
  set (y := sqrt (1 - e o) * cos (E / 2)) in *.
  set (x := sqrt (1 + e o) * sin (E / 2)) in *.
  destruct (Atan2_double y x) as [Hc Hs].
  rewrite Hrho, Hd in Hc. rewrite Hrho, Hp in Hs.
  rewrite cos_plus, sin_plus. cbn [X Y].
  f_equal.
  - replace (a o * (1 - e o * cos E)
             * (cos (pomega o) * cos (2 * Atan2 y x)
                - sin (pomega o) * sin (2 * Atan2 y x)))
      with (a o * (cos (pomega o) * ((1 - e o * cos E) * cos (2 * Atan2 y x))
                   - sin (pomega o)
                     * ((1 - e o * cos E) * sin (2 * Atan2 y x)))) by ring.
    rewrite Hc, Hs. ring.
  - replace (a o * (1 - e o * cos E)
             * (sin (pomega o) * cos (2 * Atan2 y x)
                + cos (pomega o) * sin (2 * Atan2 y x)))
      with (a o * (sin (pomega o) * ((1 - e o * cos E) * cos (2 * Atan2 y x))
                   + cos (pomega o)
                     * ((1 - e o * cos E) * sin (2 * Atan2 y x)))) by ring.
    rewrite Hc, Hs. ring.
Qed.

(** The same for the simulation clock: the textbook point
    [(a (cos E - e), b sin E)] turned by [pomega]. *)
Lemma updateOrbits_closed (obt : orbit) (t : R) :
  -1 <= e obt <= 1 ->
  updateOrbits_position obt t
  = rotate (pomega obt)
      (mkVector2D
         (a obt * (cos (keplerE (m0 obt + t * n obt) (e obt) 10) - e obt))
         (a obt * (sqrt (1 - e obt * e obt)
                   * sin (keplerE (m0 obt + t * n obt) (e obt) 10)))).
Proof.
  intros He. unfold updateOrbits_position, rotate.
  cbv zeta. rewrite !iter_keplerE, keplerE_opp.
  set (E := keplerE (m0 obt + t * n obt) (e obt) 10).
  replace (- E / 2) with (- (E / 2)) by field.
  rewrite !cos_neg, sin_neg.
  replace (sqrt (1 + e obt) * - sin (E / 2))
    with (- (sqrt (1 + e obt) * sin (E / 2))) by ring.
  destruct (half_angle_squares (e obt) E He) as (Hrho & Hd & Hp).
  cbv zeta in Hrho, Hd, Hp.
  set (y := sqrt (1 - e obt) * cos (E / 2)) in *.
  set (x := sqrt (1 + e obt) * sin (E / 2)) in *.
  destruct (Atan2_double y (- x)) as [Hc Hs].
  replace (- x * - x + y * y) with (x * x + y * y) in Hc, Hs by ring.
  replace (- x * - x - y * y) with (x * x - y * y) in Hc by ring.
  replace (2 * (- x * y)) with (- (2 * (x * y))) in Hs by ring.
  rewrite Hrho, Hd in Hc. rewrite Hrho, Hp in Hs.
  rewrite cos_plus, sin_plus. cbn [X Y].
  f_equal.
  - replace (- a obt * (1 - e obt * cos E)
             * (cos (pomega obt) * cos (2 * Atan2 y (- x))
                - sin (pomega obt) * sin (2 * Atan2 y (- x))))
      with (- a obt
            * (cos (pomega obt)
               * ((1 - e obt * cos E) * cos (2 * Atan2 y (- x)))
               - sin (pomega obt)
                 * ((1 - e obt * cos E) * sin (2 * Atan2 y (- x))))) by ring.
    rewrite Hc, Hs. ring.
  - replace (- a obt * (1 - e obt * cos E)
             * (sin (pomega obt) * cos (2 * Atan2 y (- x))
                + cos (pomega obt) * sin (2 * Atan2 y (- x))))
      with (- a obt
            * (sin (pomega obt)
               * ((1 - e obt * cos E) * cos (2 * Atan2 y (- x)))
               + cos (pomega obt)
                 * ((1 - e obt * cos E) * sin (2 * Atan2 y (- x))))) by ring.
    rewrite Hc, Hs. ring.
Qed.

(** The squared distance of [PositionAt] from the origin. *)
Lemma PositionAt_norm (o : orbit) (t : R) :
  0 < a o ->
  X (PositionAt o t) * X (PositionAt o t)
  + Y (PositionAt o t) * Y (PositionAt o t)
  = (a o * (1 - e o * cos (keplerE (m0 o + (t - J2000) * n o) (e o) 10)))
    * (a o * (1 - e o * cos (keplerE (m0 o + (t - J2000) * n o) (e o) 10))).
Proof.
  intros Ha. unfold PositionAt.
  destruct (Rle_dec (a o) 0) as [Hle|_]; [lra|].
  cbv zeta. rewrite !iter_keplerE. cbn [X Y].
  set (E := keplerE (m0 o + (t - J2000) * n o) (e o) 10).
  set (th := pomega o + 2 * Atan2 _ _).
  pose proof (sin2_cos2 th) as H1. unfold Rsqr in H1.
  set (r := a o * (1 - e o * cos E)).
  replace (r * cos th * (r * cos th) + r * sin th * (r * sin th))
    with (r * r * (sin th * sin th + cos th * cos th)) by ring.
  rewrite H1. ring.
Qed.

End ClosedForms.

(** * What the propagators guarantee beyond the formula *)

(** X1: [PositionAt] has the period [Period]: for [n <> 0] and
    [-1 <= e <= 1] the position a period later is the same point. *)
Theorem PositionAt_periodic (o : orbit) (t : R) :
  n o <> 0 -> -1 <= e o <= 1 ->
  PositionAt o (t + Period o) = PositionAt o t.
Proof.
  intros Hn _. unfold PositionAt.
  destruct (Rle_dec (a o) 0) as [_|_]; [reflexivity|].
  cbv zeta. rewrite !iter_keplerE.
  replace (m0 o + (t + Period o - J2000) * n o)
    with (m0 o + (t - J2000) * n o + 2 * PI)
    by (unfold Period; field; exact Hn).
  rewrite keplerE_shift_2PI.
  set (E := keplerE (m0 o + (t - J2000) * n o) (e o) 10).
  replace ((E + 2 * PI) / 2) with (E / 2 + PI) by field.
  rewrite neg_cos, neg_sin, cos_shift_2PI.
  replace (sqrt (1 - e o) * - cos (E / 2))
    with (- (sqrt (1 - e o) * cos (E / 2))) by ring.
  replace (sqrt (1 + e o) * - sin (E / 2))
    with (- (sqrt (1 + e o) * sin (E / 2))) by ring.
  set (y := sqrt (1 - e o) * cos (E / 2)).
  set (x := sqrt (1 + e o) * sin (E / 2)).
  destruct (Atan2_double_opp y x) as [Hc Hs].
  rewrite !cos_plus, !sin_plus, Hc, Hs. reflexivity.
Qed.

Lemma PositionAt_periodic_witness :
  PositionAt (NewOrbit 1 (1 / 2) 0 0 1) (0 + Period (NewOrbit 1 (1 / 2) 0 0 1))
  = PositionAt (NewOrbit 1 (1 / 2) 0 0 1) 0.
Proof.
  apply (PositionAt_periodic (NewOrbit 1 (1 / 2) 0 0 1) 0); simpl; lra.
Defined.

(** X2: for [a > 0] and [-1 <= e <= 1], [PositionAt] is the point
    [(a (e - cos E), a sqrt(1 - e^2) sin E)] turned by [pomega], where [E] is
    the tenth Kepler iterate: the angle computed through [Atan2] drops out. *)
Theorem PositionAt_perifocal (o : orbit) (t : R) :
  0 < a o -> -1 <= e o <= 1 ->
  let E := keplerE (m0 o + (t - J2000) * n o) (e o) 10 in
  PositionAt o t
  = rotate (pomega o)
      (mkVector2D (a o * (e o - cos E))
                  (a o * (sqrt (1 - e o * e o) * sin E))).
Proof. intros Ha He E. apply PositionAt_closed; assumption. Qed.

Lemma PositionAt_perifocal_witness :
  PositionAt (NewOrbit 2 (1 / 2) 1 0 1) 5
  = rotate 1
      (mkVector2D
         (2 * (1 / 2 - cos (keplerE (0 + (5 - J2000) * 1) (1 / 2) 10)))
         (2 * (sqrt (1 - 1 / 2 * (1 / 2))
               * sin (keplerE (0 + (5 - J2000) * 1) (1 / 2) 10)))).
Proof.
  apply (PositionAt_perifocal (NewOrbit 2 (1 / 2) 1 0 1) 5); simpl; lra.
Defined.

(** X3: for [a > 0] and [0 <= e <= 1] the distance of [PositionAt] from the
    origin is [a (1 - e cos E)], between the periapsis distance [a (1 - e)]
    and the apoapsis distance [a (1 + e)]; on a circular orbit it is [a]. *)
Theorem PositionAt_between_apsides (o : orbit) (t : R) :
  0 < a o -> 0 <= e o <= 1 ->
  let p := PositionAt o t in
  let E := keplerE (m0 o + (t - J2000) * n o) (e o) 10 in
  sqrt (X p * X p + Y p * Y p) = a o * (1 - e o * cos E)
  /\ a o * (1 - e o) <= sqrt (X p * X p + Y p * Y p) <= a o * (1 + e o)
  /\ (e o = 0 -> sqrt (X p * X p + Y p * Y p) = a o).
Proof.
  intros Ha He p E. unfold p. rewrite (PositionAt_norm o t Ha). fold E.
  pose proof (COS_bound E) as Hcos.
  assert (H1 : 0 <= a o * (e o * (1 - cos E)))
    by (apply Rmult_le_pos; [lra|apply Rmult_le_pos; lra]).
  assert (H2 : 0 <= a o * (e o * (1 + cos E)))
    by (apply Rmult_le_pos; [lra|apply Rmult_le_pos; lra]).
  assert (H3 : 0 <= a o * (1 - e o)) by (apply Rmult_le_pos; lra).
  assert (Hr : 0 <= a o * (1 - e o * cos E)) by lra.
  rewrite (sqrt_square _ Hr).
  split; [reflexivity|]. split; [lra|].
  intros H0. rewrite H0. ring.
Qed.

Lemma PositionAt_between_apsides_witness :
  let p := PositionAt (NewOrbit 2 (1 / 2) 1 0 1) 5 in
  2 * (1 - 1 / 2) <= sqrt (X p * X p + Y p * Y p) <= 2 * (1 + 1 / 2).
Proof.
  apply (PositionAt_between_apsides (NewOrbit 2 (1 / 2) 1 0 1) 5);
    simpl; lra.
Defined.

(** X4: where [PositionAt] puts the apsides, for [a > 0] and
    [-1 <= e <= 1]: at mean anomaly [0] the point is at distance
    [a (1 - e)] in the direction opposite to [pomega], and at mean anomaly
    [PI] it is at distance [a (1 + e)] in the direction [pomega]. *)
Theorem PositionAt_apsides (o : orbit) (t : R) :
  0 < a o -> -1 <= e o <= 1 ->
  (m0 o + (t - J2000) * n o = 0 ->
   PositionAt o t
   = mkVector2D (- (a o * (1 - e o)) * cos (pomega o))
                (- (a o * (1 - e o)) * sin (pomega o)))
  /\ (m0 o + (t - J2000) * n o = PI ->
      PositionAt o t
      = mkVector2D (a o * (1 + e o) * cos (pomega o))
                   (a o * (1 + e o) * sin (pomega o))).
Proof.
  intros Ha He. rewrite (PositionAt_closed o t Ha He). unfold rotate.
  split; intros HM; rewrite HM; cbn [X Y].
  - rewrite keplerE_0, cos_0, sin_0. f_equal; ring.
  - rewrite keplerE_PI, cos_PI, sin_PI. f_equal; ring.
Qed.

Lemma PositionAt_apsides_witness :
  PositionAt (NewOrbit 2 (1 / 2) 1 0 1) J2000
  = mkVector2D (- (2 * (1 - 1 / 2)) * cos 1) (- (2 * (1 - 1 / 2)) * sin 1).
Proof.
  apply (PositionAt_apsides (NewOrbit 2 (1 / 2) 1 0 1) J2000);
    simpl; lra.
Defined.

(** X5: on a circular orbit [PositionAt] is a uniform motion on the circle
    of radius [a] that runs clockwise: the point at mean anomaly [M] has the
    polar angle [pomega + PI - M]. *)
Theorem PositionAt_circular (o : orbit) (t : R) :
  0 < a o -> e o = 0 ->
  let M := m0 o + (t - J2000) * n o in
  PositionAt o t
  = mkVector2D (a o * cos (pomega o + PI - M)) (a o * sin (pomega o + PI - M)).
Proof.
  intros Ha He M.
  rewrite (PositionAt_closed o t Ha) by (rewrite He; lra).
  fold M. rewrite He, keplerE_circular. unfold rotate. cbn [X Y].
  replace (1 - 0 * 0) with 1 by ring. rewrite sqrt_1.
  replace (pomega o + PI - M) with (pomega o - M + PI) by ring.
  rewrite neg_cos, neg_sin, cos_minus, sin_minus.
  f_equal; ring.
Qed.

Lemma PositionAt_circular_witness :
  PositionAt (NewOrbit 3 0 1 2 1) 7
  = mkVector2D (3 * cos (1 + PI - (2 + (7 - J2000) * 1)))
               (3 * sin (1 + PI - (2 + (7 - J2000) * 1))).
Proof.
  apply (PositionAt_circular (NewOrbit 3 0 1 2 1) 7); simpl; [lra|reflexivity].
Defined.

(** X6: for [-1 <= e <= 1] the position set by [updateOrbits] is the
    textbook point [(a (cos E - e), a sqrt(1 - e^2) sin E)] turned by
    [pomega], where [E] is the tenth Kepler iterate of [M0 + t n]: the two
    sign flips cancel. *)
Theorem updateOrbits_perifocal (obt : orbit) (t : R) :
  -1 <= e obt <= 1 ->
  let E := keplerE (m0 obt + t * n obt) (e obt) 10 in
  updateOrbits_position obt t
  = rotate (pomega obt)
      (mkVector2D (a obt * (cos E - e obt))
                  (a obt * (sqrt (1 - e obt * e obt) * sin E))).
Proof. intros He E. apply updateOrbits_closed; assumption. Qed.

Lemma updateOrbits_perifocal_witness :
  updateOrbits_position (NewOrbit 2 (1 / 2) 1 0 1) 5
  = rotate 1
      (mkVector2D
         (2 * (cos (keplerE (0 + 5 * 1) (1 / 2) 10) - 1 / 2))
         (2 * (sqrt (1 - 1 / 2 * (1 / 2))
               * sin (keplerE (0 + 5 * 1) (1 / 2) 10)))).
Proof.
  apply (updateOrbits_perifocal (NewOrbit 2 (1 / 2) 1 0 1) 5); simpl; lra.
Defined.

(** X7: the body moves on the orbit line: for [a >= 0] and [0 <= e <= 1]
    the position set by [updateOrbits] is the point of angle [E + PI] of the
    ellipse that [initOrbit] draws, turned by the rotation of the line; in
    the frame of the line it satisfies the equation of that ellipse. *)
Theorem updateOrbits_on_orbit_line (obt : orbit) (t : R) :
  0 <= a obt -> 0 <= e obt <= 1 ->
  let c := initOrbit_ellipse obt in
  let E := keplerE (m0 obt + t * n obt) (e obt) 10 in
  let q := rotate (- rotationZ c) (updateOrbits_position obt t) in
  updateOrbits_position obt t
  = rotate (rotationZ c)
      (mkVector2D (aX c + xRadius c * cos (E + PI))
                  (aY c + yRadius c * sin (E + PI)))
  /\ yRadius c * yRadius c * ((X q - aX c) * (X q - aX c))
     + xRadius c * xRadius c * ((Y q - aY c) * (Y q - aY c))
     = xRadius c * xRadius c * (yRadius c * yRadius c).
Proof.
  intros Ha He c E q.
  assert (Hc : aX c = a obt * e obt).
  { unfold c, initOrbit_ellipse. cbn [aX].
    assert (Hb : sqrt (1 - 1 * e obt * e obt) * sqrt (1 - 1 * e obt * e obt)
                 = 1 - 1 * e obt * e obt) by (apply sqrt_sqrt; nra).
    replace (a obt * a obt
             - a obt * sqrt (1 - 1 * e obt * e obt)
               * (a obt * sqrt (1 - 1 * e obt * e obt)))
      with (a obt * e obt * (a obt * e obt)).
    - apply sqrt_square. nra.
    - replace (a obt * sqrt (1 - 1 * e obt * e obt)
               * (a obt * sqrt (1 - 1 * e obt * e obt)))
        with (a obt * a obt
              * (sqrt (1 - 1 * e obt * e obt) * sqrt (1 - 1 * e obt * e obt)))
        by ring.
      rewrite Hb. ring. }
  assert (Hpos : updateOrbits_position obt t
                 = rotate (rotationZ c)
                     (mkVector2D (aX c + xRadius c * cos (E + PI))
                                 (aY c + yRadius c * sin (E + PI)))).
  { rewrite (updateOrbits_closed obt t) by lra. fold E.
    rewrite Hc. unfold c, initOrbit_ellipse, rotate.
    cbn [X Y aY xRadius yRadius rotationZ].
    rewrite !neg_cos, !neg_sin.
    replace (1 - 1 * e obt * e obt) with (1 - e obt * e obt) by ring.
    f_equal; ring. }
  split; [exact Hpos|].
  unfold q. rewrite Hpos. unfold rotate. cbn [X Y].
  rewrite cos_neg, sin_neg.
  pose proof (sin2_cos2 (rotationZ c)) as H1. unfold Rsqr in H1.
  pose proof (sin2_cos2 (E + PI)) as H2. unfold Rsqr in H2.
  set (cr := cos (rotationZ c)) in *. set (sr := sin (rotationZ c)) in *.
  set (ce := cos (E + PI)) in *. set (se := sin (E + PI)) in *.
  set (u := aX c + xRadius c * ce). set (v := aY c + yRadius c * se).
  replace ((u * cr - v * sr) * cr - (u * sr + v * cr) * - sr)
    with (u * (sr * sr + cr * cr)) by ring.
  replace ((u * cr - v * sr) * - sr + (u * sr + v * cr) * cr)
    with (v * (sr * sr + cr * cr)) by ring.
  rewrite H1. unfold u, v.
  replace (yRadius c * yRadius c
           * ((aX c + xRadius c * ce) * 1 - aX c)
           * ((aX c + xRadius c * ce) * 1 - aX c))
    with (yRadius c * yRadius c * (xRadius c * xRadius c) * (ce * ce)) by ring.
  replace (yRadius c * yRadius c
           * (((aX c + xRadius c * ce) * 1 - aX c)
              * ((aX c + xRadius c * ce) * 1 - aX c))
           + xRadius c * xRadius c
             * (((aY c + yRadius c * se) * 1 - aY c)
                * ((aY c + yRadius c * se) * 1 - aY c)))
    with (xRadius c * xRadius c * (yRadius c * yRadius c)
          * (se * se + ce * ce)) by ring.
  rewrite H2. ring.
Qed.

Lemma updateOrbits_on_orbit_line_witness :
  let obt := NewOrbit 2 (1 / 2) 1 0 1 in
  updateOrbits_position obt 5
  = rotate (rotationZ (initOrbit_ellipse obt))
      (mkVector2D
         (aX (initOrbit_ellipse obt)
          + xRadius (initOrbit_ellipse obt)
            * cos (keplerE (m0 obt + 5 * n obt) (e obt) 10 + PI))
         (aY (initOrbit_ellipse obt)
          + yRadius (initOrbit_ellipse obt)
            * sin (keplerE (m0 obt + 5 * n obt) (e obt) 10 + PI))).
Proof.
  apply (updateOrbits_on_orbit_line (NewOrbit 2 (1 / 2) 1 0 1) 5);
    simpl; lra.
Defined.

(** X8: where [updateOrbits] puts the apsides, for [-1 <= e <= 1]: at
    [M0 + t n = 0] the body is at distance [a (1 - e)] in the direction
    [pomega], and at [M0 + t n = PI] at distance [a (1 + e)] in the opposite
    direction; on a circular orbit the body runs counterclockwise, at the
    polar angle [pomega + M0 + t n]. *)
Theorem updateOrbits_apsides (obt : orbit) (t : R) :
  -1 <= e obt <= 1 ->
  (m0 obt + t * n obt = 0 ->
   updateOrbits_position obt t
   = mkVector2D (a obt * (1 - e obt) * cos (pomega obt))
                (a obt * (1 - e obt) * sin (pomega obt)))
  /\ (m0 obt + t * n obt = PI ->
      updateOrbits_position obt t
      = mkVector2D (- (a obt * (1 + e obt)) * cos (pomega obt))
                   (- (a obt * (1 + e obt)) * sin (pomega obt)))
  /\ (e obt = 0 ->
      updateOrbits_position obt t
      = mkVector2D (a obt * cos (pomega obt + (m0 obt + t * n obt)))
                   (a obt * sin (pomega obt + (m0 obt + t * n obt)))).
Proof.
  intros He. rewrite (updateOrbits_closed obt t He). unfold rotate.
  split; [|split]; intros HM; cbn [X Y].
  - rewrite HM, keplerE_0, cos_0, sin_0. f_equal; ring.
  - rewrite HM, keplerE_PI, cos_PI, sin_PI. f_equal; ring.
  - rewrite HM, keplerE_circular.
    set (M := m0 obt + t * n obt).
    replace (1 - 0 * 0) with 1 by ring. rewrite sqrt_1, cos_plus, sin_plus.
    f_equal; ring.
Qed.

Lemma updateOrbits_apsides_witness :
  updateOrbits_position (NewOrbit 2 (1 / 2) 1 0 1) 0
  = mkVector2D (2 * (1 - 1 / 2) * cos 1) (2 * (1 - 1 / 2) * sin 1).
Proof.
  apply (updateOrbits_apsides (NewOrbit 2 (1 / 2) 1 0 1) 0); simpl; lra.
Defined.

(** * More on [NewSystem] *)

Lemma touch_radius c mc o : radius (touch c mc o) = radius o.
Proof. reflexivity. Qed.

(** With keys that tell the satellites apart, the sorted slice does not
    depend on the order of the input. *)
Lemma sortedBy_strongly (K : ref -> R) (l : list ref) :
  sortedBy K l -> StronglySorted (fun x y => K x <= K y) l.
Proof.
  unfold sortedBy. intros Hs.
  apply Sorted_StronglySorted in Hs; [|intros x y z; apply Rle_trans].
  induction l as [|x l IH]; [constructor|].
  simpl in Hs. inversion Hs as [|? ? Hs' Hall]; subst.
  constructor; [now apply IH|].
  apply Forall_forall. intros y Hy.
  rewrite Forall_forall in Hall. apply Hall.
  apply list_elem_of_fmap. now exists y.
Qed.

Lemma sortByA_order_independent (h : heap) (l l' : list ref) :
  (forall x y, x ∈ l -> y ∈ l -> keyA h x = keyA h y -> x = y) ->
  l ≡ₚ l' -> sortByA h l = sortByA h l'.
Proof.
  intros Hinj Hperm.
  apply (sorting.StronglySorted_unique_strong
           (fun x y => keyA h x <= keyA h y)).
  - intros x y Hx Hy Hxy Hyx.
    apply elem_of_sortByA in Hx. apply elem_of_sortByA in Hy.
    rewrite <- Hperm in Hy. apply Hinj; [assumption|assumption|lra].
  - apply sortedBy_strongly, sortByA_sorted.
  - apply sortedBy_strongly, sortByA_sorted.
  - now rewrite !sortByA_perm.
Qed.

Lemma endsWith_refl (s : string) : endsWith s s = true.
Proof. destruct s; cbn [endsWith]; now rewrite String.eqb_refl. Qed.

Lemma endsWith_append (x suffix : string) : endsWith (x +:+ suffix) suffix = true.
Proof.
  induction x as [|ch x IH].
  - apply endsWith_refl.
  - change (String ch x +:+ suffix) with (String ch (x +:+ suffix)).
    cbn [endsWith].
    destruct (String.eqb (String ch (x +:+ suffix)) suffix); [reflexivity|].
    exact IH.
Qed.

Lemma endsWith_prepend (x y suffix : string) :
  endsWith y suffix = true -> endsWith (x +:+ y) suffix = true.
Proof.
  intros Hy. induction x as [|ch x IH]; [exact Hy|].
  change (String ch x +:+ y) with (String ch (x +:+ y)).
  cbn [endsWith].
  destruct (String.eqb (String ch (x +:+ y)) suffix); [reflexivity|exact IH].
Qed.

(** The power [x^0.4] of a positive mass ratio below one is below one. *)
Lemma Pow_lt_1 (x : R) : 0 < x < 1 -> 0 < Pow x 0.4 < 1.
Proof.
  intros [H0 H1]. unfold Pow.
  destruct (Rle_dec x 0); [lra|]. unfold Rpower. split; [apply exp_pos|].
  rewrite <- exp_0. apply exp_increasing.
  assert (Hln : ln x < 0) by (rewrite <- ln_1; apply ln_increasing; lra).
  nra.
Qed.

(** * What [NewSystem] guarantees beyond its description *)

(** X9: the node a well-formed call returns as root has [soi = -1]: it is
    the central body itself, or a new [Barycenter] without parent. *)
Theorem NewSystem_root_sentinel (h : heap) (c : ref) (cb : orbitable)
    (l0 : list ref) :
  wellFormed h c cb l0 ->
  exists root h' ro,
    NewSystem c (Some l0) h = Ok root h'
    /\ h' !! root = Some ro
    /\ soi ro = -1
    /\ ((root = c /\ kind ro = kind cb)
        \/ (root = length h /\ kind ro = Barycenter /\ parent ro = None)).
Proof.
  intros Hwf.
  pose proof (wellFormed_valid _ _ _ _ Hwf) as Hval.
  pose proof (wellFormed_cases _ _ _ _ Hwf) as Hcases.
  destruct Hwf as (Hc & Hsat & _ & _ & Hnin & _).
  destruct Hcases as [Hlt|(d & db & Hdom & Hin & Hd & _ & _ & Hnlt)].
  - destruct (NewSystem_root h c (Some l0) cb Hc Hsat Hval Hnin Hlt)
      as (h' & Heq & _ & Hc' & _).
    eexists c, h', _. split; [exact Heq|]. split; [exact Hc'|].
    split; [reflexivity|]. left. split; reflexivity.
  - destruct (NewSystem_barycenter h c d l0 cb db _
                Hc Hsat Hval Hnin Hdom Hin Hd Hnlt)
      as (h' & Heq & _ & Hbc' & _).
    eexists (length h), h', _. split; [exact Heq|]. split; [exact Hbc'|].
    split; [reflexivity|]. right. repeat split.
Qed.

Lemma NewSystem_root_sentinel_witness :
  exists root h' ro,
    NewSystem 0%nat (Some [1%nat]) twins = Ok root h'
    /\ h' !! root = Some ro /\ soi ro = -1.
Proof.
  destruct (NewSystem_root_sentinel twins 0%nat twinA [1%nat] twins_wellFormed)
    as (root & h' & ro & Heq & Hro & Hsoi & _).
  exists root, h', ro. split; [exact Heq|]. split; [exact Hro|exact Hsoi].
Defined.

(** X10: after a well-formed call every input satellite is linked to the
    node that lists it: its parent is the central body or the returned root,
    that node has it in its satellites, and the other of the two does not;
    and the two lists hold nothing but the input satellites and, for the
    barycenter, the central body. *)
Theorem NewSystem_parent_links (h : heap) (c : ref) (cb : orbitable)
    (l0 : list ref) :
  wellFormed h c cb l0 ->
  exists root h' cb' ro,
    NewSystem c (Some l0) h = Ok root h'
    /\ h' !! c = Some cb' /\ h' !! root = Some ro
    /\ (forall s, s ∈ l0 ->
          exists o' p po,
            h' !! s = Some o' /\ parent o' = Some p
            /\ (p = c \/ p = root)
            /\ h' !! p = Some po /\ s ∈ elems (satellites po)
            /\ (p <> c -> s ∉ elems (satellites cb'))
            /\ (p <> root -> s ∉ elems (satellites ro)))
    /\ (forall s, s ∈ elems (satellites cb') -> s ∈ l0)
    /\ (forall s, s ∈ elems (satellites ro) -> s = c \/ s ∈ l0).
Proof.
  intros Hwf.
  pose proof (wellFormed_valid _ _ _ _ Hwf) as Hval.
  pose proof (wellFormed_cases _ _ _ _ Hwf) as Hcases.
  destruct Hwf as (Hc & Hsat & _ & _ & Hnin & _).
  destruct Hcases as [Hlt|(d & db & Hdom & Hin & Hd & _ & _ & Hnlt)].
  - destruct (NewSystem_root h c (Some l0) cb Hc Hsat Hval Hnin Hlt)
      as (h' & Heq & _ & Hc' & Hs' & _).
    eexists c, h', _, _. split; [exact Heq|]. split; [exact Hc'|].
    split; [exact Hc'|]. cbn [satellites set_satellites option_map elems].
    split; [|split].
    + intros s Hs. destruct (Hval s Hs) as [o Ho].
      eexists _, c, _. split; [apply (Hs' s o Hs Ho)|].
      split; [reflexivity|]. split; [now left|]. split; [exact Hc'|].
      cbn [satellites set_satellites elems].
      split; [now apply elem_of_sortByA|]. split; congruence.
    + intros s Hs. now apply elem_of_sortByA in Hs.
    + intros s Hs. right. now apply elem_of_sortByA in Hs.
  - destruct (NewSystem_barycenter h c d l0 cb db _
                Hc Hsat Hval Hnin Hdom Hin Hd Hnlt)
      as (h' & Heq & _ & Hbc' & Hc' & Hd' & Hs' & _).
    set (bc := length h) in *.
    set (thr := threshold (mass cb) db) in *.
    set (l := sortByA h l0) in *.
    assert (Hcbc : c <> bc).
    { apply lookup_lt_Some in Hc. unfold bc. lia. }
    assert (Hpar : forall s, s ∈ l0 ->
              exists o', h' !! s = Some o'
                         /\ parent o' = Some (side h thr c bc s)).
    { intros s Hs. destruct (Hval s Hs) as [o Ho].
      destruct (decide (s = d)) as [->|Hne].
      - eexists. split; [exact Hd'|reflexivity].
      - eexists. split; [apply (Hs' s o Hs Hne Ho)|reflexivity]. }
    eexists bc, h', _, _. split; [exact Heq|]. split; [exact Hc'|].
    split; [exact Hbc'|]. cbn [satellites elems].
    split; [|split].
    + intros s Hs. destruct (Hpar s Hs) as (o' & Ho' & Hp).
      assert (Hsl : s ∈ l) by (now apply elem_of_sortByA).
      assert (Hsc : s <> c) by (intros ->; contradiction).
      unfold side in Hp.
      destruct (decide (keyA h s < thr)) as [Hlt|Hge].
      * eexists o', c, _. split; [exact Ho'|]. split; [exact Hp|].
        split; [now left|]. split; [exact Hc'|]. cbn [satellites elems].
        split; [apply list_elem_of_filter; now split|].
        split; [congruence|]. intros _ Hmem.
        apply elem_of_cons in Hmem as [?|Hmem]; [contradiction|].
        apply list_elem_of_filter in Hmem as [Hn _]. contradiction.
      * eexists o', bc, _. split; [exact Ho'|]. split; [exact Hp|].
        split; [now right|]. split; [exact Hbc'|]. cbn [satellites elems].
        split; [right; apply list_elem_of_filter; now split|].
        split; [|congruence]. intros _ Hmem.
        apply list_elem_of_filter in Hmem as [Hn _]. contradiction.
    + intros s Hs. apply list_elem_of_filter in Hs as [_ Hs].
      now apply elem_of_sortByA in Hs.
    + intros s Hs. apply elem_of_cons in Hs as [->|Hs]; [now left|right].
      apply list_elem_of_filter in Hs as [_ Hs].
      now apply elem_of_sortByA in Hs.
Qed.

Lemma NewSystem_parent_links_witness :
  exists root h',
    NewSystem 0%nat (Some [1%nat; 2%nat]) twinsAndPebble = Ok root h'.
Proof.
  destruct (NewSystem_parent_links twinsAndPebble 0%nat twinA [1%nat; 2%nat]
              twinsAndPebble_wellFormed)
    as (root & h' & cb' & ro & Heq & _).
  exists root, h'. exact Heq.
Defined.

(** X11: when a well-formed call inserts a barycenter, the two rewritten
    semi-major axes are positive (so [PositionAt] does not treat the bodies
    as degenerate), they add up to the dominant satellite's former [a], and
    the barycenter is the centre of mass of the pair:
    [mass_central * a_central = mass_dominant * a_dominant]. *)
Theorem NewSystem_barycenter_balance (h : heap) (c : ref) (cb : orbitable)
    (l0 : list ref) :
  wellFormed h c cb l0 ->
  0.5 * radius cb
    <= fst (dominantFrom h (mass cb) (sortByA h l0) (0, None)) ->
  exists d db h' cb' db',
    d ∈ l0 /\ h !! d = Some db
    /\ NewSystem c (Some l0) h = Ok (length h) h'
    /\ h' !! c = Some cb' /\ h' !! d = Some db'
    /\ 0 < a_of cb' /\ 0 < a_of db'
    /\ a_of cb' + a_of db' = a_of db
    /\ mass cb' * a_of cb' = mass db' * a_of db'.
Proof.
  intros Hwf Hge.
  pose proof (wellFormed_valid _ _ _ _ Hwf) as Hval.
  destruct (wellFormed_cases _ _ _ _ Hwf)
    as [Hlt|(d & db & Hdom & Hin & Hd & HmaxR & Hpos & Hnlt)]; [lra|].
  destruct Hwf as (Hc & Hsat & _ & Hmc & Hnin & Hmass).
  destruct (Hmass d Hin) as (db0 & Hd0 & Hmd).
  rewrite Hd in Hd0. inversion Hd0; subst db0.
  destruct (NewSystem_barycenter h c d l0 cb db _
              Hc Hsat Hval Hnin Hdom Hin Hd Hnlt)
    as (h' & Heq & _ & _ & Hc' & Hd' & _).
  set (maxR := fst (dominantFrom h (mass cb) (sortByA h l0) (0, None))) in *.
  eexists d, db, h', _, _.
  split; [exact Hin|]. split; [exact Hd|]. split; [exact Heq|].
  split; [exact Hc'|]. split; [exact Hd'|].
  unfold a_of in *. cbn [orb a set_a mass].
  assert (Hq : 0 < mass cb / mass db) by (apply Rdiv_lt_0_compat; assumption).
  assert (Hden : 1 + mass cb / mass db <> 0) by lra.
  assert (Ha : a (orb db) = maxR * (1 + mass cb / mass db)).
  { rewrite HmaxR. unfold offset, a_of. field. split; lra. }
  split; [exact Hpos|]. split; [nra|]. split; [ring|].
  rewrite Ha. field. lra.
Qed.

Lemma NewSystem_barycenter_balance_witness :
  exists h' cb' db',
    NewSystem 0%nat (Some [1%nat]) twins = Ok 2%nat h'
    /\ h' !! 0%nat = Some cb' /\ h' !! 1%nat = Some db'
    /\ mass cb' * a_of cb' = mass db' * a_of db'.
Proof.
  destruct (NewSystem_barycenter_balance twins 0%nat twinA [1%nat]
              twins_wellFormed twins_reach)
    as (d & db & h' & cb' & db' & Hin & _ & Heq & Hc & Hd & _ & _ & _ & Hbal).
  apply list_elem_of_singleton in Hin. subst d.
  exists h', cb', db'. repeat split; assumption.
Defined.

(** X12: a well-formed call touches nothing but the central body, the
    satellites and, when there is one, the cell of the new barycenter: every
    other node of the store is left as it was, the store grows by the
    barycenter only, and the central body keeps its name, radius, mass, kind
    and parent link. *)
Theorem NewSystem_touches_only (h : heap) (c : ref) (cb : orbitable)
    (l0 : list ref) :
  wellFormed h c cb l0 ->
  exists root h' cb',
    NewSystem c (Some l0) h = Ok root h'
    /\ h' !! c = Some cb'
    /\ name cb' = name cb /\ radius cb' = radius cb /\ mass cb' = mass cb
    /\ kind cb' = kind cb /\ parent cb' = parent cb
    /\ (forall r : nat, r ∉ l0 -> r <> c -> (r < length h)%nat ->
          h' !! r = h !! r)
    /\ ((root = c /\ length h' = length h)
        \/ (root = length h /\ length h' = S (length h))).
Proof.
  intros Hwf.
  pose proof (wellFormed_valid _ _ _ _ Hwf) as Hval.
  pose proof (wellFormed_cases _ _ _ _ Hwf) as Hcases.
  destruct Hwf as (Hc & Hsat & _ & _ & Hnin & _).
  destruct Hcases as [Hlt|(d & db & Hdom & Hin & Hd & _ & _ & Hnlt)].
  - destruct (NewSystem_root h c (Some l0) cb Hc Hsat Hval Hnin Hlt)
      as (h' & Heq & Hlen & Hc' & _ & Hr').
    eexists c, h', _. split; [exact Heq|]. split; [exact Hc'|].
    repeat (split; [reflexivity|]).
    split; [|left; now split].
    intros r Hr Hne _. now apply Hr'.
  - destruct (NewSystem_barycenter h c d l0 cb db _
                Hc Hsat Hval Hnin Hdom Hin Hd Hnlt)
      as (h' & Heq & Hlen & _ & Hc' & _ & _ & Hr').
    eexists (length h), h', _. split; [exact Heq|]. split; [exact Hc'|].
    repeat (split; [reflexivity|]).
    split; [|right; now split].
    intros r Hr Hne Hlt. apply Hr'; [assumption|assumption|lia].
Qed.

Lemma NewSystem_touches_only_witness :
  exists root h',
    NewSystem 0%nat (Some [1%nat]) planetMoon = Ok root h'
    /\ ((root = 0%nat /\ length h' = 2%nat)
        \/ (root = 2%nat /\ length h' = 3%nat)).
Proof.
  destruct (NewSystem_touches_only planetMoon 0%nat heavyPlanet [1%nat]
              planetMoon_wellFormed)
    as (root & h' & cb' & Heq & _ & _ & _ & _ & _ & _ & _ & Hlen).
  exists root, h'. split; [exact Heq|exact Hlen].
Defined.

(** X13: a central body whose radius is not positive and none of whose
    satellites has a positive offset (in particular one called without
    satellites) makes [NewSystem] stop on a nil pointer dereference: the
    barycenter branch is entered without a dominant satellite.  (Masses are
    positive, as in a well-formed call.) *)
Theorem NewSystem_nil_dominant_panics (h : heap) (c : ref) (sats : slice)
    (cb : orbitable) :
  h !! c = Some cb -> satellites cb = None -> 0 < mass cb ->
  (forall s, s ∈ elems sats -> exists o, h !! s = Some o /\ 0 < mass o) ->
  (forall s o, s ∈ elems sats -> h !! s = Some o ->
     a_of o / (1 + mass cb / mass o) <= 0) ->
  radius cb <= 0 ->
  NewSystem c sats h = Panic nilDeref.
Proof.
  intros Hc Hsat _ Hval0 Hoff Hrad.
  assert (Hval : forall s, s ∈ elems sats -> is_Some (h !! s)).
  { intros s Hs. destruct (Hval0 s Hs) as (o & Ho & _). now exists o. }
  apply (NewSystem_nil_dominant h c sats cb Hc Hsat Hval); [|exact Hrad].
  destruct (dominantFrom_inv h (mass cb) (sortByA h (elems sats)) (0, None))
    as [Heq|(d & o & _ & Hin & Ho & _ & Hpos)].
  - now rewrite Heq.
  - apply elem_of_sortByA in Hin. specialize (Hoff d o Hin Ho).
    unfold offset in Hpos. simpl in Hpos. lra.
Qed.

Lemma NewSystem_nil_dominant_panics_witness :
  NewSystem 0%nat (Some [])
    [mkOrbitable (NewOrbit 0 0 0 0 0) "P" None None 0 1 0 (Body Planet)]
  = Panic nilDeref.
Proof.
  apply (NewSystem_nil_dominant_panics
           [mkOrbitable (NewOrbit 0 0 0 0 0) "P" None None 0 1 0 (Body Planet)]
           0%nat (Some []) _ eq_refl eq_refl).
  - simpl. lra.
  - intros s Hs. now apply not_elem_of_nil in Hs.
  - intros s o Hs. now apply not_elem_of_nil in Hs.
  - simpl. lra.
Defined.

(** X14: the guard against a second call only sees a non-nil slice.  On a
    central body of positive radius called without satellites, the call
    returns the central body with [soi = -1] and the slice as satellites;
    repeated after the nil slice it returns again and leaves the store as it
    is, repeated after an empty non-nil slice it panics. *)
Theorem NewSystem_nil_slice_repeats (h : heap) (c : ref) (cb : orbitable) :
  h !! c = Some cb -> satellites cb = None -> 0 < radius cb ->
  let h1 := <[c := set_satellites None (set_soi (-1) cb)]> h in
  let h2 := <[c := set_satellites (Some []) (set_soi (-1) cb)]> h in
  NewSystem c None h = Ok c h1
  /\ NewSystem c None h1 = Ok c h1
  /\ NewSystem c (Some []) h = Ok c h2
  /\ forall sats, NewSystem c sats h2 = Panic "Satellites already set".
Proof.
  intros Hc Hsat Hrad h1 h2.
  assert (Hrun : forall (hh : heap) (cc : orbitable) sats,
            hh !! c = Some cc -> satellites cc = None -> 0 < radius cc ->
            elems sats = [] ->
            NewSystem c sats hh
            = Ok c (<[c := set_satellites sats (set_soi (-1) cc)]> hh)).
  { intros hh cc sats Hcc Hs Hr Hnil.
    destruct (NewSystem_root hh c sats cc Hcc Hs)
      as (h' & Heq & Hlen & Hc' & _ & Hr').
    - rewrite Hnil. intros s Hin. now apply not_elem_of_nil in Hin.
    - rewrite Hnil. apply not_elem_of_nil.
    - rewrite Hnil. simpl. lra.
    - rewrite Heq. f_equal. apply list_eq. intros r.
      assert (Hsame : option_map (sortByA hh) sats = sats).
      { destruct sats as [l|]; [|reflexivity].
        simpl in Hnil. subst l. reflexivity. }
      destruct (decide (r = c)) as [->|Hne].
      + rewrite Hc', Hsame. symmetry. apply (lookup_insert_same _ _ _ _ Hcc).
      + rewrite list_lookup_insert_ne by congruence.
        apply Hr'; [rewrite Hnil; apply not_elem_of_nil|exact Hne]. }
  split; [apply (Hrun h cb None Hc Hsat Hrad eq_refl)|].
  split.
  - unfold h1.
    rewrite (Hrun _ (set_satellites None (set_soi (-1) cb)) None
               (lookup_insert_same _ _ _ _ Hc) eq_refl Hrad eq_refl).
    now rewrite list_insert_insert_eq.
  - split; [apply (Hrun h cb (Some []) Hc Hsat Hrad eq_refl)|].
    intros sats.
    eapply NewSystem_already_set;
      [apply (lookup_insert_same _ _ _ _ Hc)|reflexivity].
Qed.

Lemma NewSystem_nil_slice_repeats_witness :
  NewSystem 0%nat None [twinA]
  = Ok 0%nat (<[0%nat := set_satellites None (set_soi (-1) twinA)]> [twinA]).
Proof.
  apply (NewSystem_nil_slice_repeats [twinA] 0%nat twinA eq_refl eq_refl).
  simpl. lra.
Defined.

(** X15: when the satellites have pairwise different semi-major axes, the
    outcome of [NewSystem], result and store, does not depend on the order
    in which the caller lists them. *)
Theorem NewSystem_order_independent (h : heap) (c : ref) (l l' : list ref) :
  (forall x y, x ∈ l -> y ∈ l -> keyA h x = keyA h y -> x = y) ->
  l ≡ₚ l' ->
  NewSystem c (Some l) h = NewSystem c (Some l') h.
Proof.
  intros Hinj Hperm.
  pose proof (sortByA_order_independent h l l' Hinj Hperm) as Hsort.
  unfold NewSystem. rewrite !bind_eq.
  destruct (load c h) as [cb h0|msg] eqn:Hload; [|reflexivity].
  destruct (satellites cb); [reflexivity|].
  rewrite !bind_eq. unfold sortSlice.
  assert (Hh : h0 = h).
  { unfold load in Hload. destruct (h !! c); now inversion Hload. }
  subst h0. cbn [option_map]. now rewrite Hsort.
Qed.

Lemma NewSystem_order_independent_witness :
  NewSystem 0%nat (Some [1%nat; 2%nat]) twinsAndPebble
  = NewSystem 0%nat (Some [2%nat; 1%nat]) twinsAndPebble.
Proof.
  apply (NewSystem_order_independent twinsAndPebble 0%nat
           [1%nat; 2%nat] [2%nat; 1%nat]).
  - intros x y Hx Hy.
    apply elem_of_cons in Hx as [->|Hx];
      [|apply list_elem_of_singleton in Hx as ->];
      (apply elem_of_cons in Hy as [->|Hy];
       [|apply list_elem_of_singleton in Hy as ->]);
      unfold keyA, a_of; simpl; intros Hk; first [reflexivity | lra].
  - apply perm_swap.
Defined.

(** X16: the barycenter a well-formed call inserts gets no label on the
    map: its name ends in [" Barycenter"], for which [createLabel] returns
    no canvas, whatever the two bodies are called. *)
Theorem NewSystem_barycenter_unlabelled (h : heap) (c : ref) (cb : orbitable)
    (l0 : list ref) :
  wellFormed h c cb l0 ->
  0.5 * radius cb
    <= fst (dominantFrom h (mass cb) (sortByA h l0) (0, None)) ->
  exists h' bcn,
    NewSystem c (Some l0) h = Ok (length h) h'
    /\ h' !! length h = Some bcn
    /\ endsWith (name bcn) " Barycenter" = true
    /\ createLabel (name bcn) = None.
Proof.
  intros Hwf Hge.
  pose proof (wellFormed_valid _ _ _ _ Hwf) as Hval.
  destruct (wellFormed_cases _ _ _ _ Hwf)
    as [Hlt|(d & db & Hdom & Hin & Hd & _ & _ & Hnlt)]; [lra|].
  destruct Hwf as (Hc & Hsat & _ & _ & Hnin & _).
  destruct (NewSystem_barycenter h c d l0 cb db _
              Hc Hsat Hval Hnin Hdom Hin Hd Hnlt)
    as (h' & Heq & _ & Hbc' & _).
  eexists h', _. split; [exact Heq|]. split; [exact Hbc'|].
  cbn [name]. unfold createLabel, barycenterName.
  assert (Hends : endsWith (name cb +:+ "-" +:+ name db +:+ " Barycenter")
                    " Barycenter" = true).
  { do 2 apply endsWith_prepend. apply endsWith_append. }
  split; [exact Hends|]. now rewrite Hends.
Qed.

Lemma NewSystem_barycenter_unlabelled_witness :
  exists h' bcn,
    NewSystem 0%nat (Some [1%nat]) twins = Ok 2%nat h'
    /\ h' !! 2%nat = Some bcn /\ createLabel (name bcn) = None.
Proof.
  destruct (NewSystem_barycenter_unlabelled twins 0%nat twinA [1%nat]
              twins_wellFormed twins_reach)
    as (h' & bcn & Heq & Hbc & _ & Hlab).
  exists h', bcn. split; [exact Heq|]. split; [exact Hbc|exact Hlab].
Defined.

(** X17: when a well-formed call inserts a barycenter, the central body's
    new [soi] is the boundary of the split: a satellite stays with the
    central body exactly when its semi-major axis is below it, and goes to
    the barycenter otherwise, the dominant satellite always; when the
    dominant satellite is lighter than the central body, that [soi] is
    positive and smaller than the dominant satellite's former [a]. *)
Theorem NewSystem_inner_within_soi (h : heap) (c : ref) (cb : orbitable)
    (l0 : list ref) :
  wellFormed h c cb l0 ->
  0.5 * radius cb
    <= fst (dominantFrom h (mass cb) (sortByA h l0) (0, None)) ->
  exists d db h' cb',
    snd (dominantFrom h (mass cb) (sortByA h l0) (0, None)) = Some d
    /\ h !! d = Some db
    /\ NewSystem c (Some l0) h = Ok (length h) h'
    /\ h' !! c = Some cb'
    /\ (forall s o, s ∈ l0 -> h !! s = Some o ->
          exists o', h' !! s = Some o'
            /\ (a_of o < soi cb' -> parent o' = Some c)
            /\ (~ a_of o < soi cb' -> parent o' = Some (length h)))
    /\ (exists db', h' !! d = Some db' /\ parent db' = Some (length h))
    /\ (mass db < mass cb -> 0 < soi cb' < a_of db).
Proof.
  intros Hwf Hge.
  pose proof (wellFormed_valid _ _ _ _ Hwf) as Hval.
  destruct (wellFormed_cases _ _ _ _ Hwf)
    as [Hlt|(d & db & Hdom & Hin & Hd & HmaxR & Hpos & Hnlt)]; [lra|].
  destruct Hwf as (Hc & Hsat & _ & Hmc & Hnin & Hmass).
  destruct (Hmass d Hin) as (db0 & Hd0 & Hmd).
  rewrite Hd in Hd0. inversion Hd0; subst db0.
  destruct (NewSystem_barycenter h c d l0 cb db _
              Hc Hsat Hval Hnin Hdom Hin Hd Hnlt)
    as (h' & Heq & _ & _ & Hc' & Hd' & Hs' & _).
  set (maxR := fst (dominantFrom h (mass cb) (sortByA h l0) (0, None))) in *.
  set (thr := threshold (mass cb) db) in *.
  assert (Hdout : ~ keyA h d < thr).
  { rewrite (keyA_lookup _ _ _ Hd).
    apply dominant_not_inner. now rewrite <- HmaxR. }
  assert (Hside : forall s o, s ∈ l0 -> h !! s = Some o ->
            exists o', h' !! s = Some o'
                       /\ parent o' = Some (side h thr c (length h) s)).
  { intros s o Hs Ho. destruct (decide (s = d)) as [->|Hne].
    - eexists. split; [exact Hd'|reflexivity].
    - eexists. split; [apply (Hs' s o Hs Hne Ho)|reflexivity]. }
  eexists d, db, h', _.
  split; [now rewrite Hdom|]. split; [exact Hd|]. split; [exact Heq|].
  split; [exact Hc'|]. cbn [soi].
  split; [|split].
  - intros s o Hs Ho. destruct (Hside s o Hs Ho) as (o' & Ho' & Hp).
    exists o'. split; [exact Ho'|].
    unfold side in Hp. rewrite (keyA_lookup _ _ _ Ho) in Hp.
    destruct (decide (a_of o < thr)); split; intros; tauto || congruence.
  - destruct (Hside d db Hin Hd) as (o' & Ho' & Hp).
    exists o'. split; [exact Ho'|].
    unfold side in Hp. now rewrite decide_False in Hp by exact Hdout.
  - intros Hlighter. unfold thr, threshold.
    assert (Hratio : 0 < mass db / mass cb < 1).
    { split; [now apply Rdiv_lt_0_compat|].
      apply Rmult_lt_reg_r with (mass cb); [exact Hmc|].
      unfold Rdiv. rewrite Rmult_assoc, Rinv_l by lra. lra. }
    pose proof (Pow_lt_1 _ Hratio) as HP.
    assert (Hapos : 0 < a_of db).
    { assert (Hq : 0 < mass cb / mass db) by (now apply Rdiv_lt_0_compat).
      assert (Ha : a_of db = maxR * (1 + mass cb / mass db)).
      { rewrite HmaxR. unfold offset. field. split; lra. }
      nra. }
    nra.
Qed.

Lemma NewSystem_inner_within_soi_witness :
  exists h' cb',
    NewSystem 0%nat (Some [1%nat]) twins = Ok 2%nat h'
    /\ h' !! 0%nat = Some cb'.
Proof.
  destruct (NewSystem_inner_within_soi twins 0%nat twinA [1%nat]
              twins_wellFormed twins_reach)
    as (d & db & h' & cb' & _ & _ & Heq & Hc & _).
  exists h', cb'. split; [exact Heq|exact Hc].
Defined.

(** * The map: picking and the camera *)

(** The search keeps the smallest squared distance met so far and the first
    object that reached it. *)
Lemma nearestFrom_spec (x y : R) (positions : list Vector2D) :
  forall (i : nat) (st : option nat * R),
    snd (nearestFrom x y positions i st) <= snd st
    /\ (forall j pos, positions !! j = Some pos ->
          snd (nearestFrom x y positions i st) <= dist2To x y pos)
    /\ (nearestFrom x y positions i st = st
        \/ exists j pos,
             fst (nearestFrom x y positions i st) = Some (i + j)%nat
             /\ positions !! j = Some pos
             /\ snd (nearestFrom x y positions i st) = dist2To x y pos
             /\ snd (nearestFrom x y positions i st) < snd st
             /\ forall k posk, (k < j)%nat -> positions !! k = Some posk ->
                  snd (nearestFrom x y positions i st) < dist2To x y posk).
Proof.
  induction positions as [|p rest IH]; intros i st.
  - simpl. split; [lra|]. split; [|now left].
    intros j pos Hj. now rewrite lookup_nil in Hj.
  - cbn [nearestFrom].
    set (st1 := if Rlt_dec (dist2To x y p) (snd st)
                then (Some i, dist2To x y p) else st).
    destruct (IH (S i) st1) as (Hle & Hall & Hcase).
    assert (Hst1 : snd st1 <= snd st /\ snd st1 <= dist2To x y p).
    { unfold st1. destruct (Rlt_dec (dist2To x y p) (snd st)); simpl; lra. }
    split; [lra|]. split.
    + intros [|j] pos Hj; simpl in Hj.
      * inversion Hj; subst. lra.
      * exact (Hall j pos Hj).
    + destruct Hcase as [Heq|(j & pos & Hf & Hj & Hd & Hlt & Hfirst)].
      * rewrite Heq. unfold st1.
        destruct (Rlt_dec (dist2To x y p) (snd st)) as [Hlt|Hge]; [|now left].
        right. exists 0%nat, p. simpl.
        split; [f_equal; lia|]. repeat split; auto.
        intros k posk Hk. lia.
      * right. exists (S j), pos.
        split; [rewrite Hf; f_equal; lia|]. split; [exact Hj|].
        split; [exact Hd|]. split; [lra|].
        intros [|k] posk Hk Hlk; simpl in Hlk.
        -- inversion Hlk; subst. lra.
        -- apply (Hfirst k posk); [lia|exact Hlk].
Qed.

(** X18: the search of [onMouseUp] finds the object nearest to the click
    among those strictly nearer than the origin of the system, the first one
    in case of a tie, and none when no object is nearer than the origin. *)
Theorem onMouseUp_nearest (x y : R) (positions : list Vector2D) :
  let found := nearestFrom x y positions 0 (None, x * x + y * y) in
  snd found <= x * x + y * y
  /\ (forall j pos, positions !! j = Some pos ->
        snd found <= dist2To x y pos)
  /\ (fst found = None -> snd found = x * x + y * y)
  /\ (forall i, fst found = Some i ->
        exists pos,
          positions !! i = Some pos
          /\ snd found = dist2To x y pos
          /\ dist2To x y pos < x * x + y * y
          /\ forall k posk, (k < i)%nat -> positions !! k = Some posk ->
               dist2To x y pos < dist2To x y posk).
Proof.
  intros found.
  destruct (nearestFrom_spec x y positions 0 (None, x * x + y * y))
    as (Hle & Hall & Hcase).
  fold found in Hle, Hall, Hcase. simpl in Hle.
  split; [exact Hle|]. split; [exact Hall|]. split.
  - intros Hnone.
    destruct Hcase as [Heq|(j & pos & Hf & _)]; [now rewrite Heq|congruence].
  - intros i Hi.
    destruct Hcase as [Heq|(j & pos & Hf & Hj & Hd & Hlt & Hfirst)].
    + rewrite Heq in Hi. discriminate.
    + rewrite Hf in Hi. inversion Hi; subst i. simpl in Hlt.
      exists pos. split; [exact Hj|]. split; [exact Hd|].
      split; [lra|]. intros k posk Hk Hlk. rewrite <- Hd.
      now apply (Hfirst k posk).
Qed.

(** X19: a pick changes nothing when everything is more than 50 pixels
    from the click; otherwise it marks the camera dirty and either focuses
    the nearest object, which is within 50 pixels, or, when the origin is
    at least as near as every object, clears the focus to the origin. *)
Theorem onMouseUp_pick_effect (scale x y : R) (positions : list Vector2D)
    (st : pickState) :
  0 < scale ->
  let st' := onMouseUp_pick scale x y positions st in
  (st' = st
   /\ 2500 * (scale * scale) < x * x + y * y
   /\ forall j pos, positions !! j = Some pos ->
        2500 * (scale * scale) < dist2To x y pos)
  \/ (isCameraDirty st' = true
      /\ ((exists i pos,
             focusObject st' = Some i /\ focus st' = focus st
             /\ positions !! i = Some pos
             /\ dist2To x y pos <= 2500 * (scale * scale)
             /\ forall j posj, positions !! j = Some posj ->
                  dist2To x y pos <= dist2To x y posj)
          \/ (focusObject st' = None /\ focus st' = mkVector2D 0 0
              /\ x * x + y * y <= 2500 * (scale * scale)
              /\ forall j posj, positions !! j = Some posj ->
                   x * x + y * y <= dist2To x y posj))).
Proof.
  intros Hs st'. unfold st', onMouseUp_pick.
  destruct (nearestFrom_spec x y positions 0 (None, x * x + y * y))
    as (Hle & Hall & Hcase).
  set (found := nearestFrom x y positions 0 (None, x * x + y * y)) in *.
  simpl in Hle. cbv zeta.
  assert (Hpx : snd found / scale / scale * (scale * scale) = snd found)
    by (field; lra).
  assert (Hss : 0 < scale * scale) by nra.
  destruct (Rlt_dec 2500 (snd found / scale / scale)) as [Hfar|Hnear].
  - left. split; [reflexivity|].
    assert (Hd : 2500 * (scale * scale) < snd found) by nra.
    split; [lra|]. intros j pos Hj. specialize (Hall j pos Hj). lra.
  - right.
    assert (Hd : snd found <= 2500 * (scale * scale)) by nra.
    destruct Hcase as [Heq|(j & pos & Hf & Hj & Hdist & Hlt & _)].
    + rewrite Heq in *. simpl. split; [reflexivity|]. right.
      simpl in Hd. repeat split; auto.
    + rewrite Hf. simpl. split; [reflexivity|]. left.
      exists j, pos. repeat split; auto; [lra|].
      intros k posk Hk. rewrite <- Hdist. now apply (Hall k posk).
Qed.

Lemma onMouseUp_pick_effect_witness :
  onMouseUp_pick 1 100 0 [mkVector2D 0 0] (mkPickState (mkVector2D 3 4) None false)
  = mkPickState (mkVector2D 3 4) None false
  /\ 2500 * (1 * 1) < 100 * 100 + 0 * 0.
Proof.
  destruct (onMouseUp_pick_effect 1 100 0 [mkVector2D 0 0]
              (mkPickState (mkVector2D 3 4) None false) ltac:(lra))
    as [(Heq & Hfar & _)|(_ & [(i & pos & _ & _ & Hi & Hd & _)|(_ & _ & Hd & _)])].
  - split; [exact Heq|exact Hfar].
  - exfalso. destruct i as [|i]; simpl in Hi; [|discriminate].
    inversion Hi; subst pos. unfold dist2To in Hd. simpl in Hd. lra.
  - exfalso. lra.
Defined.

(** X20: the click transform undoes the label transform.  After [draw] has
    fitted the camera to a view of positive size (wrapper, overlay and
    canvas being of that one size), a click on the pixel where the label of
    an object is anchored (its corner moved by the 50 pixels of half its
    width) is turned by [onMouseUp] into the world position of the object,
    whatever the focus and the zoom. *)
Theorem click_on_label_hits_object (viewSize offsetWidth offsetHeight : R)
    (focus0 pos : Vector2D) :
  0 < viewSize -> 0 < offsetWidth -> 0 < offsetHeight ->
  let label := draw_labelAt viewSize offsetWidth offsetHeight focus0 pos in
  onMouseUp_world (draw_camera viewSize offsetWidth offsetHeight)
    (draw_rootPosition focus0) offsetHeight (X label + 50) (Y label)
  = pos.
Proof.
  intros Hv Hw Hh label.
  assert (Hmin : 0 < Rmin offsetWidth offsetHeight)
    by (apply Rmin_glb_lt; assumption).
  unfold label, onMouseUp_world, draw_labelAt, draw_camera,
    draw_rootPosition, getViewScale.
  cbn [X Y cam_left cam_top cam_bottom].
  destruct pos as [px py]. cbn [X Y].
  f_equal; field; lra.
Qed.

Lemma click_on_label_hits_object_witness :
  onMouseUp_world (draw_camera 1.6 800 600)
    (draw_rootPosition (mkVector2D 1 2)) 600
    (X (draw_labelAt 1.6 800 600 (mkVector2D 1 2) (mkVector2D 3 5)) + 50)
    (Y (draw_labelAt 1.6 800 600 (mkVector2D 1 2) (mkVector2D 3 5)))
  = mkVector2D 3 5.
Proof.
  apply (click_on_label_hits_object 1.6 800 600
           (mkVector2D 1 2) (mkVector2D 3 5)); lra.
Defined.

(** * The websocket demo *)

(** X21: the ping-pong of the demo never starts.  The page opens with the
    text ["ping2"], which the server does not answer: in every state the
    socket can reach, nothing is on its way to the page, and the only thing
    ever sent is that first message; once the server has read it, nothing
    more happens. *)
Theorem ping_pong_never_starts (w : wire) :
  relations.rtc wire_step wire_opened w ->
  toClient w = []
  /\ (toServer w = ["ping2"] \/ (toServer w = [] /\ forall w', ~ wire_step w w')).
Proof.
  intros Hreach.
  assert (Hinv : w = mkWire ["ping2"] [] \/ w = mkWire [] []).
  { revert w Hreach. apply relations.rtc_ind_r.
    - now left.
    - intros w1 w2 _ Hstep IH.
      destruct IH as [-> | ->]; inversion Hstep; subst.
      right. reflexivity. }
  destruct Hinv as [-> | ->]; simpl.
  - split; [reflexivity|now left].
  - split; [reflexivity|]. right. split; [reflexivity|].
    intros w' Hstep. inversion Hstep.
Qed.

Lemma ping_pong_never_starts_witness :
  toClient (mkWire [] []) = [].
Proof.
  apply (ping_pong_never_starts (mkWire [] [])).
  eapply relations.rtc_l; [apply server_reads|]. apply relations.rtc_refl.
Defined.

(** X22: had the page opened with ["ping"], the exchange would never stop:
    every state the socket can then reach has exactly one message on its
    way, ["ping"] to the server or ["pong"] to the page, and can take
    another step. *)
Theorem ping_pong_runs_forever (w : wire) :
  relations.rtc wire_step (mkWire ["ping"] []) w ->
  (w = mkWire ["ping"] [] \/ w = mkWire [] ["pong"])
  /\ exists w', wire_step w w'.
Proof.
  intros Hreach.
  assert (Hinv : w = mkWire ["ping"] [] \/ w = mkWire [] ["pong"]).
  { revert w Hreach. apply relations.rtc_ind_r.
    - now left.
    - intros w1 w2 _ Hstep IH.
      destruct IH as [-> | ->]; inversion Hstep; subst.
      + right. reflexivity.
      + left. reflexivity. }
  split; [exact Hinv|].
  destruct Hinv as [-> | ->]; eexists; constructor.
Qed.

Lemma ping_pong_runs_forever_witness :
  exists w', wire_step (mkWire [] ["pong"]) w'.
Proof.
  apply (ping_pong_runs_forever (mkWire [] ["pong"])).
  eapply relations.rtc_l; [apply server_reads|]. apply relations.rtc_refl.
Defined.
